(** * Highway earthwork calculator: a shallow embedding of [src/utils/calculator.ts]

    The development follows the source function by function:
    [pNum], [chainageToMeters], [round3], [getIntersection],
    [getInterpolatedEGL] and [computeEarthwork] (first pass: one cross-section
    per data line; second pass: average-end-area volumes and the summary).
    The body of the first loop is cut into [parseLine] (the parsed and
    sanitised station), [geometry] (its intermediate values) and [computeRow]
    (the object pushed onto [rows]).  The geometry that the cross-section
    view ([src/components/Visualizer.tsx]) and the DXF and PDF writers
    rebuild from a stored row is embedded after the calculator.

    Number model.  A finite JavaScript number is an exact rational ([Q]); the
    not-a-number sentinel that the parsers return is [None] of [option Q].
    Arithmetic is therefore exact: binary rounding of doubles, signed zeros
    and the infinities are outside the model (the literal [Infinity] is read
    as unparsable, a literal too large for a double keeps its exact value, and
    a division by zero, which the first pass only reaches for a zero slope
    ratio, is [Qdiv]'s; the universal statements about sections assume
    positive slope ratios for that reason).  The universal statements about
    computed rows and volumes assume magnitudes of ordinary size ([ordinary]),
    for which a double neither overflows nor loses a thousandth.  The running
    totals of the second pass are divided by a stored area: they are
    [option Q], and [divide] by zero makes them [None], a value that is not a
    finite number.  [Math.round] is [floor (x + 1/2)], its ECMAScript
    definition; where the source rounds a double that sits on a tie, the third
    decimal it stores may be the other neighbour, so stored values are
    specified as a thousandth within 0.0005 ([roundedTo3]).

    Text model.  Strings are [string]s of 8-bit characters; [trim] strips the
    ASCII white space characters and [toLowerCase] maps [A-Z] only.

    Errors.  [computeEarthwork] returns an [Outcome]: [Throw] for the two
    kinds of exception it can raise ([Error] with its message, and the
    [TypeError] of [undefined.toString()] on a data line too short to hold
    the chainage column), [Return] otherwise. *)

From Stdlib Require Import QArith Qround Qabs Lqa Lia ZArith Ascii String Sorted.
From stdpp Require Import base gmap strings list.

Local Open Scope Q_scope.

(** ** Numbers *)

Definition Qltb (a b : Q) : bool := negb (Qle_bool b a).

Definition Math_round (x : Q) : Z := Qfloor (x + (1#2)).

Definition Math_abs (x : Q) : Q := Qabs x.

(** [function round3(x) { return Math.round(x * 1000) / 1000; }] *)
Definition round3 (x : Q) : Q := inject_Z (Math_round (x * 1000)) / 1000.

(** ** Points, intersection and ground interpolation *)

Record Point := mkPoint { px : Q; py : Q }.

Definition getIntersection (p1 p2 p3 p4 : Point) : option Point :=
  let x1 := px p1 in let y1 := py p1 in let x2 := px p2 in let y2 := py p2 in
  let x3 := px p3 in let y3 := py p3 in let x4 := px p4 in let y4 := py p4 in
  let denom := (y4 - y3) * (x2 - x1) - (x4 - x3) * (y2 - y1) in
  if Qeq_bool denom 0 then None
  else
    let ua := ((x4 - x3) * (y1 - y3) - (y4 - y3) * (x1 - x3)) / denom in
    let ub := ((x2 - x1) * (y1 - y3) - (y2 - y1) * (x1 - x3)) / denom in
    if Qle_bool 0 ua && Qle_bool ua 1 && Qle_bool 0 ub && Qle_bool ub 1
    then Some (mkPoint (x1 + ua * (x2 - x1)) (y1 + ua * (y2 - y1)))
    else None.

(** The [for] loop of [getInterpolatedEGL]: the first bracketing pair wins. *)
Fixpoint interpolateLoop (x : Q) (groundProfile : list Point) : option Q :=
  match groundProfile with
  | p1 :: (p2 :: _) as rest =>
      if Qle_bool (px p1) x && Qle_bool x (px p2)
      then let t := (x - px p1) / (px p2 - px p1) in
           Some (py p1 + t * (py p2 - py p1))
      else interpolateLoop x rest
  | _ => None
  end.

(** The profile always holds the four ground points; on an empty list, where
    the source would fail on [groundProfile[0]], the model answers [0]. *)
Definition getInterpolatedEGL (x : Q) (groundProfile : list Point) : Q :=
  match groundProfile, last groundProfile with
  | p0 :: _, Some pn =>
      if Qle_bool x (px p0) then py p0
      else if Qle_bool (px pn) x then py pn
      else match interpolateLoop x groundProfile with
           | Some y => y
           | None => py p0
           end
  | _, _ => 0
  end.

(** ** Sorting and de-duplication

    [Array.prototype.sort] is stable; a stable insertion sort yields the same
    array for a comparator of the form [(a, b) => key a - key b]. *)

Section Sorting.
Context {A : Type} (key : A -> Q).

Fixpoint insertSorted (a : A) (l : list A) : list A :=
  match l with
  | [] => [a]
  | b :: l' => if Qltb (key a) (key b) then a :: l
               else b :: insertSorted a l'
  end.

Definition sortBy (l : list A) : list A :=
  fold_left (fun acc a => insertSorted a acc) l [].
End Sorting.

(** [new Set<number>(xs)]: insertion order, first occurrence kept. *)
Fixpoint setOf (seen xs : list Q) : list Q :=
  match xs with
  | [] => seen
  | x :: xs' => if existsb (Qeq_bool x) seen then setOf seen xs'
                else setOf (seen ++ [x]) xs'
  end.

(** ** Rows and results ([src/types.ts]) *)

Inductive SectionType := Cut | Fill | Mixed | Level.

#[global] Instance SectionType_eq_dec : EqDecision SectionType.
Proof. solve_decision. Defined.

Module EarthworkRow.
Record t := mk {
  chainage : string;
  chainage_m : Q;
  fglC : Q;
  egl15L : Q;
  eglMedL : Q;
  eglMedR : Q;
  egl15R : Q;
  camberDrop : Q;
  hL : Q;
  hR : Q;
  type : SectionType;
  B : Q;
  medianWidth : Q;
  usedSlope : Q;
  distL : Q;
  distR : Q;
  bottomWidth : Q;
  area : Q;
  areaCut : Q;
  areaFill : Q;
  spacing : option Q;
  segVolume : Q
}.

Definition set_volume (r : t) (L V : Q) : t :=
  mk (chainage r) (chainage_m r) (fglC r) (egl15L r) (eglMedL r) (eglMedR r)
     (egl15R r) (camberDrop r) (hL r) (hR r) (type r) (B r) (medianWidth r)
     (usedSlope r) (distL r) (distR r) (bottomWidth r) (area r) (areaCut r)
     (areaFill r) (Some L) V.
End EarthworkRow.

(** The three totals come out of the running sums of the second pass, which
    a division can turn into NaN: they are numbers or [None]. *)
Record CalculationSummary :=
  mkSummary { totalCut : option Q; totalFill : option Q; net : option Q }.

Record CalculationResult :=
  mkResult { rows : list EarthworkRow.t; summary : CalculationSummary }.

(** ** One station: geometry, toes, areas (body of the first loop) *)

(** A parsed data line, after the ground values have been sanitised. *)
Record Station := mkStation {
  st_chStr : string;
  st_chM : Q;
  st_fglC : Q;
  st_egl15L : Q;
  st_eglMedL : Q;
  st_eglMedR : Q;
  st_egl15R : Q
}.

(** The intermediate values of one iteration that the row is built from. *)
Record Geometry := mkGeometry {
  g_groundPts : list Point;
  g_camberDrop : Q;
  g_fglL_edge : Q;
  g_fglR_edge : Q;
  g_gL_at_edge : Q;
  g_gR_at_edge : Q;
  g_isCutL : bool;
  g_isCutR : bool;
  g_gradL : Q;
  g_gradR : Q;
  g_scanL : option Point;
  g_scanR : option Point;
  g_toeL : Point;
  g_toeR : Point;
  g_sortedX : list Q;
  g_areaCut : Q;
  g_areaFill : Q
}.

(** The two toe loops: the first accepted intersection ends the scan. *)
Fixpoint findToe (accept : Point -> bool) (rayStart rayEnd : Point)
    (extendedGround : list Point) : option Point :=
  match extendedGround with
  | a :: (b :: _) as rest =>
      match getIntersection rayStart rayEnd a b with
      | Some pt => if accept pt then Some pt
                   else findToe accept rayStart rayEnd rest
      | None => findToe accept rayStart rayEnd rest
      end
  | _ => None
  end.

(** The ground profile extended flat to 1000 m on both sides;
    [groundPts[0]] and [groundPts[3]] are its outermost points. *)
Definition extendedGround (groundPts : list Point) : list Point :=
  mkPoint (-1000) (py (nth 0 groundPts (mkPoint 0 0))) :: groundPts
  ++ [ mkPoint 1000 (py (nth 3 groundPts (mkPoint 0 0))) ].

Definition classify (areaCut areaFill : Q) : SectionType :=
  if Qltb 0.01 areaCut && Qltb areaFill 0.01 then Cut
  else if Qltb 0.01 areaFill && Qltb areaCut 0.01 then Fill
  else if Qltb 0.01 areaCut && Qltb 0.01 areaFill then Mixed
  else Level.

Section Station.
Variables (B medianWidth camber cutSlope fillSlope : Q).

Definition roadY (fglC camberDrop fglL_edge fglR_edge gradL gradR mid : Q) : Q :=
  if Qltb mid ((- B) / 2) then fglL_edge + gradL * (mid - ((- B) / 2))
  else if Qltb (B / 2) mid then fglR_edge + gradR * (mid - B / 2)
  else fglC - (Math_abs mid / (B / 2)) * camberDrop.

(** The strip loop over consecutive critical offsets; the accumulator is
    the pair [(areaCut, areaFill)]. *)
Fixpoint stripLoop (road : Q -> Q) (groundPts : list Point) (sortedX : list Q)
    (acc : Q * Q) : Q * Q :=
  match sortedX with
  | x1 :: (x2 :: _) as rest =>
      if Qltb (Math_abs (x2 - x1)) 0.001 then stripLoop road groundPts rest acc
      else
        let mid := (x1 + x2) / 2 in
        let groundY := getInterpolatedEGL mid groundPts in
        let h := road mid - groundY in
        let w := x2 - x1 in
        stripLoop road groundPts rest
          (if Qltb 0 h then (fst acc, snd acc + h * w)
           else (fst acc + Math_abs h * w, snd acc))
  | _ => acc
  end.

Definition geometry (s : Station) : Geometry :=
  let fglC := st_fglC s in
  let halfMed := medianWidth / 2 in
  let groundPts := sortBy px
    [ mkPoint (-15) (st_egl15L s); mkPoint (- halfMed) (st_eglMedL s);
      mkPoint halfMed (st_eglMedR s); mkPoint 15 (st_egl15R s) ] in
  let camberDrop := (B / 2) * (camber / 100) in
  let fglL_edge := fglC - camberDrop in
  let fglR_edge := fglC - camberDrop in
  let pRoadL := mkPoint ((- B) / 2) fglL_edge in
  let pRoadR := mkPoint (B / 2) fglR_edge in
  let gL_at_edge := getInterpolatedEGL ((- B) / 2) groundPts in
  let gR_at_edge := getInterpolatedEGL (B / 2) groundPts in
  let hL_internal := gL_at_edge - fglL_edge in
  let hR_internal := gR_at_edge - fglR_edge in
  let isCutL := Qltb 0 hL_internal in
  let isCutR := Qltb 0 hR_internal in
  let slopeL := if isCutL then cutSlope else fillSlope in
  let slopeR := if isCutR then cutSlope else fillSlope in
  let gradL := if isCutL then (-1) / slopeL else 1 / slopeL in
  let gradR := if isCutR then 1 / slopeR else (-1) / slopeR in
  let scanL :=
    findToe (fun pt => Qle_bool (px pt) ((- B) / 2 + 0.001))
      pRoadL (mkPoint (px pRoadL - 1000) (py pRoadL + gradL * (-1000)))
      (extendedGround groundPts) in
  let scanR :=
    findToe (fun pt => Qle_bool (B / 2 - 0.001) (px pt))
      pRoadR (mkPoint (px pRoadR + 1000) (py pRoadR + gradR * 1000))
      (extendedGround groundPts) in
  let toeL := default (mkPoint ((- B) / 2) gL_at_edge) scanL in
  let toeR := default (mkPoint (B / 2) gR_at_edge) scanR in
  let criticalX :=
    setOf [] ([ (- B) / 2; 0; B / 2; px toeL; px toeR ] ++ map px groundPts) in
  let sortedX :=
    List.filter (fun x => Qle_bool (px toeL - 0.001) x && Qle_bool x (px toeR + 0.001))
      (sortBy id criticalX) in
  let areas :=
    stripLoop (roadY fglC camberDrop fglL_edge fglR_edge gradL gradR)
      groundPts sortedX (0, 0) in
  mkGeometry groundPts camberDrop fglL_edge fglR_edge gL_at_edge gR_at_edge
    isCutL isCutR gradL gradR scanL scanR toeL toeR sortedX
    (fst areas) (snd areas).

(** The object pushed onto [rows]. *)
Definition computeRow (s : Station) : EarthworkRow.t :=
  let g := geometry s in
  let totalArea := g_areaCut g + g_areaFill g in
  EarthworkRow.mk
    (st_chStr s)
    (st_chM s)
    (round3 (st_fglC s))
    (round3 (st_egl15L s))
    (round3 (st_eglMedL s))
    (round3 (st_eglMedR s))
    (round3 (st_egl15R s))
    (round3 (g_camberDrop g))
    (round3 (g_fglL_edge g - g_gL_at_edge g))
    (round3 (g_fglR_edge g - g_gR_at_edge g))
    (classify (g_areaCut g) (g_areaFill g))
    (round3 B)
    (round3 medianWidth)
    (if g_isCutL g then cutSlope else fillSlope)
    (round3 (Math_abs (px (g_toeL g) - ((- B) / 2))))
    (round3 (Math_abs (px (g_toeR g) - B / 2)))
    (round3 (px (g_toeR g) - px (g_toeL g)))
    (round3 totalArea)
    (round3 (g_areaCut g))
    (round3 (g_areaFill g))
    None
    0.
End Station.

(** ** Text primitives (the string methods the parser uses) *)

Local Open Scope string_scope.

Definition isWhiteSpace (c : ascii) : bool :=
  let n := nat_of_ascii c in
  ((9 <=? n) && (n <=? 13))%nat || (n =? 32)%nat.

Definition isDigit (c : ascii) : bool :=
  let n := nat_of_ascii c in ((48 <=? n) && (n <=? 57))%nat.

Definition digitValue (c : ascii) : Z := Z.of_nat (nat_of_ascii c) - 48.

Fixpoint trimStart (s : string) : string :=
  match s with
  | String c s' => if isWhiteSpace c then trimStart s' else s
  | EmptyString => EmptyString
  end.

(** [trimEnd] keeps a character when it, or something after it, is not
    white space. *)
Fixpoint trimEnd (s : string) : string :=
  match s with
  | String c s' =>
      match trimEnd s' with
      | EmptyString => if isWhiteSpace c then EmptyString else String c EmptyString
      | t => String c t
      end
  | EmptyString => EmptyString
  end.

Definition trim (s : string) : string := trimEnd (trimStart s).

Definition toLowerChar (c : ascii) : ascii :=
  let n := nat_of_ascii c in
  if ((65 <=? n) && (n <=? 90))%nat then ascii_of_nat (n + 32) else c.

Fixpoint toLowerCase (s : string) : string :=
  match s with
  | String c s' => String (toLowerChar c) (toLowerCase s')
  | EmptyString => EmptyString
  end.

(** [hay.includes(needle)] *)
Fixpoint includes (needle hay : string) : bool :=
  String.prefix needle hay ||
  match hay with
  | String _ hay' => includes needle hay'
  | EmptyString => false
  end.

(** [s.replace(/[...]/g, '')] for a character class. *)
Fixpoint removeChars (drop : ascii -> bool) (s : string) : string :=
  match s with
  | String c s' => if drop c then removeChars drop s'
                   else String c (removeChars drop s')
  | EmptyString => EmptyString
  end.

(** [s.split(/\r?\n/)]: a line feed, or a carriage return followed by one,
    ends the current line. *)
Fixpoint splitLines (cur s : string) : list string :=
  match s with
  | String c s' =>
      if Ascii.eqb c "010" then cur :: splitLines "" s'
      else
        match s' with
        | String d s'' =>
            if Ascii.eqb c "013" && Ascii.eqb d "010" then cur :: splitLines "" s''
            else splitLines (cur ++ String c "") s'
        | EmptyString => splitLines (cur ++ String c "") s'
        end
  | EmptyString => [cur]
  end.

Definition isFieldSep (c : ascii) : bool :=
  Ascii.eqb c "," || Ascii.eqb c "009".

(** [s.split(/[,\t]+/)]: a run of separators is one cut; a leading or a
    trailing run leaves an empty first or last field. *)
Fixpoint splitFields (cur : string) (inSep : bool) (s : string) : list string :=
  match s with
  | String c s' =>
      if isFieldSep c then
        if inSep then splitFields "" true s'
        else cur :: splitFields "" true s'
      else splitFields (cur ++ String c "") false s'
  | EmptyString => [cur]
  end.

Definition splitOnSeparators (s : string) : list string := splitFields "" false s.

(** ** Number parsing: [parseFloat], [Number], [parseInt] *)

(** A maximal run of decimal digits: its value, its length, the rest. *)
Fixpoint scanDigits (acc : Z) (n : nat) (s : string) : Z * nat * string :=
  match s with
  | String c s' =>
      if isDigit c then scanDigits (10 * acc + digitValue c) (S n) s'
      else (acc, n, s)
  | EmptyString => (acc, n, s)
  end.

(** An exponent part is consumed only when it has at least one digit. *)
Definition scanExponent (s : string) : Z * string :=
  match s with
  | String c s' =>
      if Ascii.eqb c "e" || Ascii.eqb c "E" then
        let '(sgn, s2) :=
          match s' with
          | String "+" r => (1%Z, r)
          | String "-" r => ((-1)%Z, r)
          | _ => (1%Z, s')
          end in
        let '(v, n, rest) := scanDigits 0 0 s2 in
        if (n =? 0)%nat then (0%Z, s) else ((sgn * v)%Z, rest)
      else (0%Z, s)
  | EmptyString => (0%Z, s)
  end.

(** The longest prefix that is an unsigned decimal literal
    ([digits], [digits.], [digits.digits] or [.digits], then an exponent). *)
Definition scanUnsigned (s : string) : option (Q * string) :=
  let '(ip, ni, s1) := scanDigits 0 0 s in
  let '(fp, nf, s2) :=
    match s1 with
    | String "." r => scanDigits 0 0 r
    | _ => (0%Z, 0%nat, s1)
    end in
  if (ni =? 0)%nat && (nf =? 0)%nat then None
  else
    let '(e, s3) := scanExponent s2 in
    Some (((inject_Z ip + inject_Z fp / (10 ^ Z.of_nat nf)) * 10 ^ e)%Q, s3).

Definition scanDecimalLiteral (s : string) : option (Q * string) :=
  match s with
  | String "+" r => scanUnsigned r
  | String "-" r =>
      match scanUnsigned r with
      | Some (v, rest) => Some ((- v)%Q, rest)
      | None => None
      end
  | _ => scanUnsigned s
  end.

(** [parseFloat(s)]: leading white space skipped, trailing text ignored;
    [None] is NaN. *)
Definition parseFloat (s : string) : option Q :=
  match scanDecimalLiteral (trimStart s) with
  | Some (v, _) => Some v
  | None => None
  end.

Definition radixDigit (base : Z) (c : ascii) : option Z :=
  let n := Z.of_nat (nat_of_ascii c) in
  let v := if ((48 <=? n) && (n <=? 57))%Z then (n - 48)%Z
           else if ((97 <=? n) && (n <=? 102))%Z then (n - 87)%Z
           else if ((65 <=? n) && (n <=? 70))%Z then (n - 55)%Z
           else base in
  if (v <? base)%Z then Some v else None.

Fixpoint radixValue (base acc : Z) (s : string) : option Z :=
  match s with
  | String c s' =>
      match radixDigit base c with
      | Some d => radixValue base (base * acc + d) s'
      | None => None
      end
  | EmptyString => Some acc
  end.

(** [0x..], [0o..] and [0b..] integer literals, which [Number] accepts. *)
Definition radixLiteral (t : string) : option Z :=
  match t with
  | String "0" (String c (String d r)) =>
      let body := String d r in
      if Ascii.eqb c "x" || Ascii.eqb c "X" then radixValue 16 0 body
      else if Ascii.eqb c "o" || Ascii.eqb c "O" then radixValue 8 0 body
      else if Ascii.eqb c "b" || Ascii.eqb c "B" then radixValue 2 0 body
      else None
  | _ => None
  end.

(** [Number(s)]: the whole trimmed string must be a numeric literal; the
    empty string converts to [0]; [None] is NaN. *)
Definition Number (s : string) : option Q :=
  let t := trim s in
  if String.eqb t "" then Some 0%Q
  else
    match radixLiteral t with
    | Some z => Some (inject_Z z)
    | None =>
        match scanDecimalLiteral t with
        | Some (v, EmptyString) => Some v
        | _ => None
        end
    end.

(** [parseInt(s, 10)] on a string of decimal digits. *)
Definition parseInt (s : string) : Z := fst (fst (scanDigits 0 0 s)).

Fixpoint allChars (f : ascii -> bool) (s : string) : bool :=
  match s with
  | String c s' => f c && allChars f s'
  | EmptyString => true
  end.

Definition allDigits (s : string) : bool := allChars isDigit s.

Definition padStart (n : nat) (c : ascii) (s : string) : string :=
  match (n - String.length s)%nat with
  | O => s
  | S k => String.append (string_of_list_ascii (repeat c (S k))) s
  end.

(** ** [pNum] and [chainageToMeters] *)

Inductive JsError := Error (msg : string) | TypeError.

Inductive Outcome (A : Type) := Throw (e : JsError) | Return (a : A).
Arguments Throw {A} e.
Arguments Return {A} a.

#[global] Instance Outcome_bind : MBind Outcome := fun A B k m =>
  match m with
  | Throw e => Throw e
  | Return a => k a
  end.

(** The argument is a cell of [cols], so [undefined] ([None]) or a string. *)
Definition pNum (val : option string) : option Q :=
  match val with
  | None => None
  | Some v =>
      if String.eqb v "" then None
      else parseFloat (trim (removeChars (Ascii.eqb ",") v))
  end.

(** [token.match(/^(\d+)\+(\d{1,3})$/)]: the two captured groups. *)
Fixpoint splitAtPlus (pre s : string) : option (string * string) :=
  match s with
  | String c s' =>
      if Ascii.eqb c "+" then Some (pre, s')
      else splitAtPlus (pre ++ String c "") s'
  | EmptyString => None
  end.

Definition matchStationing (token : string) : option (string * string) :=
  match splitAtPlus "" token with
  | Some (km, m) =>
      if allDigits km && (1 <=? String.length km)%nat
         && allDigits m && (1 <=? String.length m)%nat && (String.length m <=? 3)%nat
      then Some (km, m) else None
  | None => None
  end.

(** [token.replace(/m$/i, '')] *)
Fixpoint dropMetreSuffix (s : string) : string :=
  match s with
  | String c EmptyString =>
      if Ascii.eqb c "m" || Ascii.eqb c "M" then EmptyString else s
  | String c s' => String c (dropMetreSuffix s')
  | EmptyString => EmptyString
  end.

(** [undefined.toString()] raises a [TypeError]; NaN is [Return None]. *)
Definition chainageToMeters (token : option string) : Outcome (option Q) :=
  match token with
  | None => Throw TypeError
  | Some tok =>
      let token := trim tok in
      match matchStationing token with
      | Some (km, m) =>
          Return (Some (inject_Z (parseInt km * 1000 + parseInt (padStart 3 "0" m))))
      | None =>
          let plain :=
            removeChars (fun c => Ascii.eqb c "," || Ascii.eqb c " ")
              (dropMetreSuffix token) in
          match Number plain with
          | Some num => Return (Some (inject_Z (Math_round num)))
          | None => Return None
          end
      end
  end.

(** ** [computeEarthwork] *)

(** The [if / else if] chain of the header loop: the slot a header names. *)
Definition headerSlot (h : string) : option string :=
  if includes "chain" h then Some "ch"
  else if includes "prop" h || includes "frl" h || includes "fgl" h then Some "fgl"
  else if includes "15m_left" h || String.eqb h "l15" || includes "egl_15m_l" h
       then Some "l15"
  else if includes "median_lhs" h || includes "med_l" h then Some "med_l"
  else if includes "median_rhs" h || includes "med_r" h then Some "med_r"
  else if includes "15m_right" h || String.eqb h "r15" || includes "egl_15m_r" h
       then Some "r15"
  else if String.eqb h "egl" || includes "ground" h then Some "egl_generic"
  else None.

(** [headers.forEach((h, i) => ...)] starting at column [i]. *)
Fixpoint mapColumns (i : nat) (headers : list string) (colMap : gmap string nat)
    : gmap string nat :=
  match headers with
  | [] => colMap
  | h :: rest =>
      mapColumns (S i) rest
        match headerSlot h with
        | Some slot => <[slot := i]> colMap
        | None => colMap
        end
  end.

Definition isNaN (v : option Q) : bool :=
  match v with None => true | Some _ => false end.

(** [if (isNaN(v)) v = fallback] on a value that is a number from here on. *)
Definition orElse (v : option Q) (fallback : Q) : Q := default fallback v.

Section Lines.
Variables (B medianWidth camber cutSlope fillSlope : Q).
Variable colMap : gmap string nat.

(** One iteration of the data loop: [Return None] is [continue]. *)
Definition parseLine (line : string) : Outcome (option Station) :=
  let cols := map trim (splitOnSeparators line) in
  if (length cols <? 2)%nat then Return None
  else
    let cell (slot : string) : option string :=
      match colMap !! slot with
      | Some i => cols !! i
      | None => None
      end in
    let chStr := cell "ch" in
    chM ← chainageToMeters chStr;
    let fglC := pNum (cell "fgl") in
    match chM, fglC with
    | Some chM, Some fglC =>
        let '(egl15L, eglMedL, eglMedR, egl15R) :=
          if bool_decide (is_Some (colMap !! "l15")) && bool_decide (is_Some (colMap !! "med_l"))
             && bool_decide (is_Some (colMap !! "med_r")) && bool_decide (is_Some (colMap !! "r15"))
          then (pNum (cell "l15"), pNum (cell "med_l"),
                pNum (cell "med_r"), pNum (cell "r15"))
          else if bool_decide (is_Some (colMap !! "egl_generic")) then
            let val := pNum (cell "egl_generic") in (val, val, val, val)
          else if (6 <=? length cols)%nat && negb (isNaN (pNum (cols !! 2%nat)))
                  && negb (isNaN (pNum (cols !! 5%nat))) then
            (pNum (cols !! 2%nat), pNum (cols !! 3%nat),
             pNum (cols !! 4%nat), pNum (cols !! 5%nat))
          else (Some fglC, Some fglC, Some fglC, Some fglC) in
        let egl15L := orElse egl15L fglC in
        let eglMedL := orElse eglMedL egl15L in
        let eglMedR := orElse eglMedR eglMedL in
        let egl15R := orElse egl15R eglMedR in
        Return (Some (mkStation (default "" chStr) chM fglC
                        egl15L eglMedL eglMedR egl15R))
    | _, _ => Return None
    end.

(** The first pass: rows in line order; an exception discards them all. *)
Fixpoint firstPass (lines : list string) : Outcome (list EarthworkRow.t) :=
  match lines with
  | [] => Return []
  | line :: rest =>
      st ← parseLine line;
      rows ← firstPass rest;
      Return match st with
             | Some s => computeRow B medianWidth camber cutSlope fillSlope s :: rows
             | None => rows
             end
  end.
End Lines.

(** [x || 1] on a number. *)
Definition orOne (x : Q) : Q := if Qeq_bool x 0 then 1 else x.

(** [L] of the second loop; [fixedSpacing] is [None] when it is [undefined]
    or NaN. *)
Definition spacingOf (fixedSpacing : option Q) (r1 r2 : EarthworkRow.t) : Q :=
  match fixedSpacing with
  | Some s =>
      if Qltb 0 s then s
      else Math_abs (EarthworkRow.chainage_m r2 - EarthworkRow.chainage_m r1)
  | None => Math_abs (EarthworkRow.chainage_m r2 - EarthworkRow.chainage_m r1)
  end.

(** [a / b] on numbers: for a zero [b] the quotient is NaN or an infinity,
    not a finite number. *)
Definition divide (a b : Q) : option Q :=
  if Qeq_bool b 0 then None else Some (a / b).

(** [total += v]: once not a finite number, a total stays so. *)
Definition addTo (total v : option Q) : option Q :=
  t ← total; x ← v; Some (t + x).

(** The [if / else if / else] that adds a segment volume [V] to the running
    [(totalCut, totalFill)]. *)
Definition accumulate (totals : option Q * option Q) (r : EarthworkRow.t) (V : Q)
    : option Q * option Q :=
  match EarthworkRow.type r with
  | Cut => (addTo (fst totals) (Some V), snd totals)
  | Fill => (fst totals, addTo (snd totals) (Some V))
  | _ =>
      let rCut := divide (EarthworkRow.areaCut r) (orOne (EarthworkRow.area r)) in
      let rFill := divide (EarthworkRow.areaFill r) (orOne (EarthworkRow.area r)) in
      (addTo (fst totals) (Qmult V <$> rCut), addTo (snd totals) (Qmult V <$> rFill))
  end.

(** The second pass over adjacent rows, threading [(totalCut, totalFill)]. *)
Fixpoint volumePass (fixedSpacing : option Q) (rows : list EarthworkRow.t)
    (totals : option Q * option Q)
    : list EarthworkRow.t * (option Q * option Q) :=
  match rows with
  | r1 :: (r2 :: _) as rest =>
      let L := spacingOf fixedSpacing r1 r2 in
      let A1 := EarthworkRow.area r1 in
      let A2 := EarthworkRow.area r2 in
      let V := round3 (((A1 + A2) / 2) * L) in
      let '(rest', final) :=
        volumePass fixedSpacing rest (accumulate totals r1 V) in
      (EarthworkRow.set_volume r1 (round3 L) V :: rest', final)
  | _ => (rows, totals)
  end.

Definition nonEmptyLines (csvData : string) : list string :=
  List.filter (fun l => (0 <? String.length (trim l))%nat)
    (splitLines "" (trim csvData)).

Definition headersOf (line : string) : list string :=
  map (fun h => toLowerCase (trim h)) (splitOnSeparators line).

Definition computeEarthwork (csvData : string)
    (B medianWidth camber cutSlope fillSlope : Q) (fixedSpacing : option Q)
    : Outcome CalculationResult :=
  let lines := nonEmptyLines csvData in
  if (length lines <? 2)%nat
  then Throw (Error "Please enter data with a header row.")
  else
    let headers := headersOf (hd "" lines) in
    let colMap := mapColumns 0 headers ∅ in
    if bool_decide (colMap !! "ch" = None)
    then Throw (Error "Missing 'Chainage' column.")
    else if bool_decide (colMap !! "fgl" = None)
    then Throw (Error "Missing 'Proposed_FRL' column.")
    else
      rows ← firstPass B medianWidth camber cutSlope fillSlope colMap (tl lines);
      let '(rows, (totalCut, totalFill)) :=
        volumePass fixedSpacing rows (Some 0, Some 0) in
      Return (mkResult rows
                (mkSummary (round3 <$> totalCut) (round3 <$> totalFill)
                   (tc ← totalCut; tf ← totalFill; Some (round3 (tc - tf))))).

(** * The drawings: [src/components/Visualizer.tsx] and the DXF and PDF writers

    The three of them rebuild a cross-section from a stored row. *)

(** The [for] loop of [getG], over the pairs [k], [k + 1] for [k] below 3. *)
Fixpoint getGLoop (groundPts : list Point) (x : Q) (k steps : nat) : option Q :=
  match steps with
  | O => None
  | S steps' =>
      let p1 := nth k groundPts (mkPoint 0 0) in
      let p2 := nth (S k) groundPts (mkPoint 0 0) in
      if Qle_bool (px p1) x && Qle_bool x (px p2)
      then let t := (x - px p1) / (px p2 - px p1) in
           Some (py p1 + t * (py p2 - py p1))
      else getGLoop groundPts x (S k) steps'
  end.

(** [getG], the drawings' own ground interpolation; [groundPts] holds the
    four ground points, read at the indices 0 to 3. *)
Definition getG (groundPts : list Point) (x : Q) : Q :=
  let p0 := nth 0 groundPts (mkPoint 0 0) in
  let p3 := nth 3 groundPts (mkPoint 0 0) in
  if Qle_bool x (px p0) then py p0
  else if Qle_bool (px p3) x then py p3
  else match getGLoop groundPts x 0 3 with
       | Some y => y
       | None => py p0
       end.

Module Visualizer.

Record Coords := mkCoords {
  xFglL : Q; xFglR : Q; xToeL : Q; xToeR : Q;
  yFglC : Q; yFglL : Q; yFglR : Q; yToeL : Q; yToeR : Q;
  groundProfile : list Point;
  yGroundCenter : Q
}.

(** [getCoords(row)]: the toes are put back at the stored distances outside
    the formation edges; a zero median is drawn 2 cm wide. *)
Definition getCoords (row : EarthworkRow.t) : Coords :=
  let B := EarthworkRow.B row in
  let camberDrop := EarthworkRow.camberDrop row in
  let fglC := EarthworkRow.fglC row in
  let medianWidth := EarthworkRow.medianWidth row in
  let xFglL := (- B) / 2 in
  let xFglR := B / 2 in
  let xToeL := xFglL - EarthworkRow.distL row in
  let xToeR := xFglR + EarthworkRow.distR row in
  let zeroMedian := Qeq_bool medianWidth 0 in
  let rawGP :=
    [ mkPoint (-15) (EarthworkRow.egl15L row);
      mkPoint (if zeroMedian then -0.01 else (- medianWidth) / 2)
        (EarthworkRow.eglMedL row);
      mkPoint (if zeroMedian then 0.01 else medianWidth / 2)
        (EarthworkRow.eglMedR row);
      mkPoint 15 (EarthworkRow.egl15R row) ] in
  let groundProfile := sortBy px rawGP in
  mkCoords xFglL xFglR xToeL xToeR
    fglC (fglC - camberDrop) (fglC - camberDrop)
    (getG groundProfile xToeL) (getG groundProfile xToeR)
    groundProfile (getG groundProfile 0).

End Visualizer.

(** The geometry that [generateDXF] and [generatePDF] prepare for a row,
    in the same words in both. *)
Module Drawing.

Definition groundPts (row : EarthworkRow.t) : list Point :=
  sortBy px
    [ mkPoint (-15) (EarthworkRow.egl15L row);
      mkPoint ((- EarthworkRow.medianWidth row) / 2) (EarthworkRow.eglMedL row);
      mkPoint (EarthworkRow.medianWidth row / 2) (EarthworkRow.eglMedR row);
      mkPoint 15 (EarthworkRow.egl15R row) ].

Definition pFglC (row : EarthworkRow.t) : Point :=
  mkPoint 0 (EarthworkRow.fglC row).

Definition pFglL (row : EarthworkRow.t) : Point :=
  mkPoint ((- EarthworkRow.B row) / 2)
    (EarthworkRow.fglC row - EarthworkRow.camberDrop row).

Definition pFglR (row : EarthworkRow.t) : Point :=
  mkPoint (EarthworkRow.B row / 2)
    (EarthworkRow.fglC row - EarthworkRow.camberDrop row).

Definition pToeL (row : EarthworkRow.t) : Point :=
  mkPoint (- EarthworkRow.distL row)
    (getG (groundPts row) (- EarthworkRow.distL row)).

Definition pToeR (row : EarthworkRow.t) : Point :=
  mkPoint (EarthworkRow.distR row)
    (getG (groundPts row) (EarthworkRow.distR row)).

End Drawing.


(** * Specification-side definitions and sample inputs *)

Definition csvNoChainage : string :=
  "Station,Proposed_FRL,EGL" ++ String "010" "10,100,95".

(** [r] with its two second-pass fields replaced. *)
Definition withVolume (r : EarthworkRow.t) (sp : option Q) (V : Q)
    : EarthworkRow.t :=
  EarthworkRow.mk (EarthworkRow.chainage r) (EarthworkRow.chainage_m r)
    (EarthworkRow.fglC r) (EarthworkRow.egl15L r) (EarthworkRow.eglMedL r)
    (EarthworkRow.eglMedR r) (EarthworkRow.egl15R r) (EarthworkRow.camberDrop r)
    (EarthworkRow.hL r) (EarthworkRow.hR r) (EarthworkRow.type r)
    (EarthworkRow.B r) (EarthworkRow.medianWidth r) (EarthworkRow.usedSlope r)
    (EarthworkRow.distL r) (EarthworkRow.distR r) (EarthworkRow.bottomWidth r)
    (EarthworkRow.area r) (EarthworkRow.areaCut r) (EarthworkRow.areaFill r) sp V.

(** The volume that the second pass stores on [r1] when [r2] follows it. *)
Definition segmentVolume (fx : option Q) (r1 r2 : EarthworkRow.t) : Q :=
  round3 (((EarthworkRow.area r1 + EarthworkRow.area r2) / 2) * spacingOf fx r1 r2).

Definition csvA : string :=
  "Chainage,Proposed_FRL,EGL" ++ String "010" "0+000,100,95"
  ++ String "010" "0+020,100,95" ++ String "010" "0+040,101,103".

Definition resultOf (o : Outcome CalculationResult) : CalculationResult :=
  match o with
  | Return res => res
  | Throw _ => mkResult [] (mkSummary (Some 0) (Some 0) (Some 0))
  end.

Definition demoRun : CalculationResult :=
  resultOf (computeEarthwork csvA 20 4 0 1 2 None).


(** A whole number of thousandths. *)
Definition isThousandth (q : Q) : Prop := exists k : Z, (q == inject_Z k / 1000)%Q.

(** [v] is [x] rounded to three decimals, to either neighbour on a tie. *)
Definition roundedTo3 (v x : Q) : Prop :=
  isThousandth v /\ (Qabs (v - x) <= 0.0005)%Q.

(** A magnitude of ordinary size. *)
Definition ordinary (bound q : Q) : Prop := (Qabs q <= bound)%Q.

(** A row of ordinary size, as far as the second pass reads it: a chainage
    within 100 km of the origin and areas up to 10000 m2. *)
Definition ordinaryRow (r : EarthworkRow.t) : Prop :=
  ordinary 100000 (EarthworkRow.chainage_m r) /\
  ordinary 10000 (EarthworkRow.area r) /\
  ordinary 10000 (EarthworkRow.areaCut r) /\
  ordinary 10000 (EarthworkRow.areaFill r).

Definition ordinarySpacing (fixedSpacing : option Q) : Prop :=
  match fixedSpacing with
  | Some s => ordinary 100000 s
  | None => True
  end.

(** The levels that a row echoes from its data line, within 10 km of the
    datum. *)
Definition ordinaryLevels (r : EarthworkRow.t) : Prop :=
  ordinary 10000 (EarthworkRow.fglC r) /\
  ordinary 10000 (EarthworkRow.egl15L r) /\
  ordinary 10000 (EarthworkRow.eglMedL r) /\
  ordinary 10000 (EarthworkRow.eglMedR r) /\
  ordinary 10000 (EarthworkRow.egl15R r).

(** Design parameters of ordinary size: widths up to 1 km, a camber up to
    100 %, slope ratios between 1:100 and 100:1. *)
Definition ordinaryParameters (B medianWidth camber cutSlope fillSlope : Q) : Prop :=
  ordinary 1000 B /\ ordinary 1000 medianWidth /\ ordinary 100 camber /\
  (0.01 <= cutSlope <= 100)%Q /\ (0.01 <= fillSlope <= 100)%Q.

(** The spacing of a segment in the specification's words: the caller's
    fixed spacing when it is defined and positive, the chainage gap
    otherwise. *)
Definition segmentLength (fixedSpacing : option Q) (r1 r2 : EarthworkRow.t) : Q :=
  let gap := Qabs (EarthworkRow.chainage_m r2 - EarthworkRow.chainage_m r1) in
  match fixedSpacing with
  | Some s => if Qlt_le_dec 0 s then s else gap
  | None => gap
  end.

(** The average-end-area volume of a segment, before any rounding. *)
Definition endAreaVolume (fixedSpacing : option Q) (r1 r2 : EarthworkRow.t) : Q :=
  ((EarthworkRow.area r1 + EarthworkRow.area r2) / 2
   * segmentLength fixedSpacing r1 r2)%Q.


(** The specification's apportionment rule for a segment volume [V] that
    starts at row [r]: a zero total area counts as the denominator 1. *)
Definition denominator (r : EarthworkRow.t) : Q :=
  if Qeq_bool (EarthworkRow.area r) 0 then 1%Q else EarthworkRow.area r.

Definition cutShare (r : EarthworkRow.t) (V : Q) : Q :=
  match EarthworkRow.type r with
  | Cut => V
  | Fill => 0%Q
  | Mixed | Level => (V * EarthworkRow.areaCut r / denominator r)%Q
  end.

Definition fillShare (r : EarthworkRow.t) (V : Q) : Q :=
  match EarthworkRow.type r with
  | Cut => 0%Q
  | Fill => V
  | Mixed | Level => (V * EarthworkRow.areaFill r / denominator r)%Q
  end.







Definition demoRow : EarthworkRow.t :=
  match rows demoRun with
  | r :: _ => r
  | [] => computeRow 20 4 0 1 2 (mkStation "" 0 0 0 0 0 0)
  end.

(** The row after it. *)
Definition demoRow2 : EarthworkRow.t :=
  match rows demoRun with
  | _ :: r :: _ => r
  | _ => computeRow 20 4 0 1 2 (mkStation "" 0 0 0 0 0 0)
  end.

(** Five sections 20 m apart: a fill, a cut, a side-hill section that is
    part cut and part fill, a section level with its ground, and a fill. *)
Definition csvMixed : string :=
  "Chainage,Proposed_FRL,EGL_15m_L,EGL_Med_L,EGL_Med_R,EGL_15m_R"
  ++ String "010" "0+000,100,95,95,95,95"
  ++ String "010" "0+020,100,103,103,103,103"
  ++ String "010" "0+040,100,102,101,99,98"
  ++ String "010" "0+060,100,100,100,100,100"
  ++ String "010" "0+080,100,95,95,95,95".

Definition mixedRun : CalculationResult :=
  resultOf (computeEarthwork csvMixed 20 4 0 1 2 None).

(** The same sections with a fixed spacing of 12.37 m, and two neighbours
    among them: the side-hill section and the level one. *)
Definition spacedRun : CalculationResult :=
  resultOf (computeEarthwork csvMixed 20 4 0 1 2 (Some 12.37)).

Definition spacedRow : EarthworkRow.t :=
  nth 2 (rows spacedRun) (computeRow 20 4 0 1 2 (mkStation "" 0 0 0 0 0 0)).

Definition spacedRow2 : EarthworkRow.t :=
  nth 3 (rows spacedRun) (computeRow 20 4 0 1 2 (mkStation "" 0 0 0 0 0 0)).

Definition scenarioA : Station := mkStation "0+000" 0 100 95 95 95 95.

Definition csvBoundary : string :=
  "Chainage,Proposed_FRL,EGL_15m_L,EGL_Med_L,EGL_Med_R,EGL_15m_R"
  ++ String "010" "0+000,0,5,-0.02,0.02,5".

Definition csvEmptyChainage : string :=
  "Chainage,Proposed_FRL,EGL" ++ String "010" ",100,95".

(** The numeric fields that the first pass rounds when it stores them: all
    of them but [chainage_m] and [usedSlope]. *)
Definition roundedFields (r : EarthworkRow.t) : list Q :=
  [ EarthworkRow.fglC r; EarthworkRow.egl15L r; EarthworkRow.eglMedL r;
    EarthworkRow.eglMedR r; EarthworkRow.egl15R r; EarthworkRow.camberDrop r;
    EarthworkRow.hL r; EarthworkRow.hR r; EarthworkRow.B r;
    EarthworkRow.medianWidth r; EarthworkRow.distL r; EarthworkRow.distR r;
    EarthworkRow.bottomWidth r; EarthworkRow.area r; EarthworkRow.areaCut r;
    EarthworkRow.areaFill r ].

Definition csvFill : string :=
  "Chainage,Proposed_FRL,EGL" ++ String "010" "0+000,100,95".

(** Fill and cut potentials of scenario A (road at 100 over a formation 20
    wide, fill slopes 1:2, ground at 95): antiderivatives of the positive and
    of the negative part of the height of the road above the ground. *)
Definition fillPotential (x : Q) : Q :=
  if Qle_bool x (-20) then 0
  else if Qle_bool x (-10) then 10 * (x + 20) + (x * x - 400) * (1 # 4)
  else if Qle_bool x 10 then 25 + 5 * (x + 10)
  else if Qle_bool x 20 then 125 + 10 * (x - 10) - (x * x - 100) * (1 # 4)
  else 150.

Definition cutPotential (x : Q) : Q :=
  if Qle_bool x (-20) then - ((x + 20) * (x + 20)) * (1 # 4)
  else if Qle_bool x 20 then 0
  else (x - 20) * (x - 20) * (1 # 4).

(** Both ends of a strip lie on one linear piece of the scenario's road. *)
Definition sameRegion (x1 x2 : Q) : Prop :=
  x2 <= -20 \/ (-20 <= x1 /\ x2 <= -10) \/ (-10 <= x1 /\ x2 <= 10) \/
  (10 <= x1 /\ x2 <= 20) \/ 20 <= x1.

(** A property of every pair of neighbours in a list. *)
Fixpoint adjacent (P : Q -> Q -> Prop) (xs : list Q) : Prop :=
  match xs with
  | x1 :: (x2 :: _) as rest => P x1 x2 /\ adjacent P rest
  | _ => True
  end.

Definition isSliver (x1 x2 : Q) : bool := Qltb (Math_abs (x2 - x1)) 0.001.

(** The potential that the skipped strips take away. *)
Fixpoint lossOf (pot : Q -> Q) (xs : list Q) : Q :=
  match xs with
  | x1 :: (x2 :: _) as rest =>
      (if isSliver x1 x2 then pot x2 - pot x1 else 0) + lossOf pot rest
  | _ => 0
  end.

Definition firstOf (xs : list Q) : Q := hd 0 xs.
Definition lastOf (xs : list Q) : Q := List.last xs 0.

(** One iteration of the strip loop on a strip that is not skipped. *)
Definition stripStep (road : Q -> Q) (gp : list Point) (x1 x2 : Q) (acc : Q * Q)
    : Q * Q :=
  let mid := (x1 + x2) / 2 in
  let h := road mid - getInterpolatedEGL mid gp in
  let w := x2 - x1 in
  if Qltb 0 h then (fst acc, snd acc + h * w)
  else (fst acc + Math_abs h * w, snd acc).

(** Characters other than the line feed: a text made of them is one line. *)
Definition notLineFeed (c : ascii) : bool := negb (Ascii.eqb c "010").

(** Characters that do not cut a line into cells. *)
Definition notFieldSep (c : ascii) : bool := negb (isFieldSep c).

(** A data line that ends before the chainage column, here the third one. *)
Definition csvShortLine : string :=
  "Proposed_FRL,EGL,Chainage" ++ String "010" "100,95".

(** A row whose areas, volume and spacing are not negative. *)
Definition nonNegativeRow (r : EarthworkRow.t) : Prop :=
  (0 <= EarthworkRow.area r)%Q /\ (0 <= EarthworkRow.areaCut r)%Q /\
  (0 <= EarthworkRow.areaFill r)%Q /\ (0 <= EarthworkRow.segVolume r)%Q /\
  match EarthworkRow.spacing r with Some L => (0 <= L)%Q | None => True end.

(** A station whose levels are within 10 km of the datum. *)
Definition ordinaryStation (s : Station) : Prop :=
  ordinary 10000 (st_fglC s) /\ ordinary 10000 (st_egl15L s) /\
  ordinary 10000 (st_eglMedL s) /\ ordinary 10000 (st_eglMedR s) /\
  ordinary 10000 (st_egl15R s).

(** * Properties *)

(** ** Comparisons and rounding *)

(** [lra] does not divide: turn a division by a numeral into a product. *)
Ltac const_div :=
  unfold Qdiv in *;
  repeat match goal with
         | |- context [Qinv (Qmake ?n ?d)] =>
             let v := eval vm_compute in (Qinv (Qmake n d)) in
             change (Qinv (Qmake n d)) with v in *
         | H : context [Qinv (Qmake ?n ?d)] |- _ =>
             let v := eval vm_compute in (Qinv (Qmake n d)) in
             change (Qinv (Qmake n d)) with v in *
         end.

(** A closed comparison of rationals, by computation. *)
Ltac ordinary_size :=
  unfold ordinary; vm_compute; discriminate.

Lemma Qltb_lt (a b : Q) : Qltb a b = true <-> (a < b)%Q.
Proof.
  unfold Qltb. rewrite negb_true_iff. split.
  - intros H. apply Qnot_le_lt. intros Hle.
    apply Qle_bool_iff in Hle. congruence.
  - intros H. destruct (Qle_bool b a) eqn:E; [|reflexivity].
    apply Qle_bool_iff in E. exfalso. eapply Qlt_not_le; eassumption.
Qed.

Lemma Qltb_ge (a b : Q) : Qltb a b = false <-> (b <= a)%Q.
Proof.
  unfold Qltb. rewrite negb_false_iff. apply Qle_bool_iff.
Qed.

(** ** Text primitives *)

Example splitFields_ex :
  splitOnSeparators ",a,,b," = [""; "a"; "b"; ""].
Proof. reflexivity. Qed.

Example splitLines_ex :
  splitLines "" ("a" ++ String "013" (String "010" "b") ++ String "010" "")
  = ["a"; "b"; ""].
Proof. reflexivity. Qed.

Example trim_ex : trim "  a b  " = "a b".
Proof. reflexivity. Qed.

Example includes_ex :
  includes "chain" "my_chainage" = true /\ includes "x" "" = false /\
  includes "" "" = true.
Proof. repeat split; reflexivity. Qed.

Lemma append_cons (c : ascii) (s t : string) :
  String c s ++ t = String c (s ++ t).
Proof. reflexivity. Qed.

Lemma append_nil (t : string) : "" ++ t = t.
Proof. reflexivity. Qed.

Lemma append_empty_r (s : string) : s ++ "" = s.
Proof.
  induction s as [|c s IH]; [reflexivity|].
  rewrite append_cons, IH. reflexivity.
Qed.

Lemma append_assoc (s t u : string) : (s ++ t) ++ u = s ++ (t ++ u).
Proof.
  induction s as [|c s IH]; [reflexivity|].
  rewrite !append_cons, IH. reflexivity.
Qed.

Lemma allChars_app (f : ascii -> bool) (s t : string) :
  allChars f (s ++ t) = allChars f s && allChars f t.
Proof.
  induction s as [|c s IH]; [reflexivity|].
  rewrite append_cons. cbn. rewrite IH, andb_assoc. reflexivity.
Qed.

Lemma allChars_impl (f g : ascii -> bool) (s : string) :
  (forall c, f c = true -> g c = true) -> allChars f s = true -> allChars g s = true.
Proof.
  intros Hfg. induction s as [|c s IH]; cbn; [reflexivity|].
  intros H. apply andb_true_iff in H as [Hc Hs].
  rewrite (Hfg c Hc), (IH Hs). reflexivity.
Qed.

(** ** The fatal input errors *)

Lemma mapColumns_lookup_None (k : string) (headers : list string) :
  forall (i : nat) (colMap : gmap string nat),
    mapColumns i headers colMap !! k = None <->
    colMap !! k = None /\ Forall (fun h => headerSlot h <> Some k) headers.
Proof.
  induction headers as [|h rest IH]; intros i colMap; simpl.
  - split; [intros H; split; [exact H | constructor] | intros [H _]; exact H].
  - rewrite IH. destruct (headerSlot h) as [slot|] eqn:Hslot.
    + rewrite lookup_insert_None. split.
      * intros [[Hm Hne] Hrest]. split; [exact Hm|].
        constructor; [congruence | exact Hrest].
      * intros [Hm Hall]. inversion Hall as [|? ? Hh Hrest]; subst.
        split; [split; [exact Hm | congruence] | exact Hrest].
    + split.
      * intros [Hm Hrest]. split; [exact Hm|]. constructor; [congruence | exact Hrest].
      * intros [Hm Hall]. inversion Hall; subst. split; assumption.
Qed.

Lemma headerSlot_ch (h : string) :
  headerSlot h = Some "ch" <-> includes "chain" h = true.
Proof.
  unfold headerSlot. destruct (includes "chain" h); [tauto|].
  split; [|discriminate].
  repeat match goal with
         | |- context [if ?b then _ else _] => destruct b
         end; discriminate.
Qed.

Lemma headerSlot_fgl (h : string) :
  headerSlot h = Some "fgl" <->
  includes "chain" h = false /\
  (includes "prop" h || includes "frl" h || includes "fgl" h) = true.
Proof.
  unfold headerSlot. destruct (includes "chain" h).
  - split; [discriminate | intros [? _]; discriminate].
  - destruct (includes "prop" h || includes "frl" h || includes "fgl" h).
    + tauto.
    + split; [|intros [_ ?]; discriminate].
      repeat match goal with
             | |- context [if ?b then _ else _] => destruct b
             end; discriminate.
Qed.

Lemma no_chain_no_chainage_slot (headers : list string) :
  Forall (fun h => includes "chain" h = false) headers ->
  Forall (fun h => headerSlot h <> Some "ch") headers.
Proof.
  intros H. eapply Forall_impl; [exact H|].
  intros h Hh Hslot. apply headerSlot_ch in Hslot. congruence.
Qed.

Lemma splitLines_single (s : string) :
  allChars notLineFeed s = true ->
  forall cur, splitLines cur s = [cur ++ s].
Proof.
  induction s as [|c s IH]; intros H cur.
  - cbn. rewrite append_empty_r. reflexivity.
  - cbn in H. apply andb_true_iff in H as [Hc Hs].
    unfold notLineFeed in Hc. apply negb_true_iff in Hc.
    cbn [splitLines]. rewrite Hc. destruct s as [|d s'].
    + reflexivity.
    + assert (Hd : Ascii.eqb d "010" = false).
      { cbn in Hs. apply andb_true_iff in Hs as [Hd _].
        unfold notLineFeed in Hd. apply negb_true_iff in Hd. exact Hd. }
      rewrite Hd, andb_false_r, (IH Hs), append_assoc. reflexivity.
Qed.

Lemma allChars_trimStart (f : ascii -> bool) (s : string) :
  allChars f s = true -> allChars f (trimStart s) = true.
Proof.
  induction s as [|c s IH]; cbn; [reflexivity|].
  intros H. destruct (isWhiteSpace c).
  - apply andb_true_iff in H as [_ Hs]. apply IH, Hs.
  - exact H.
Qed.

Lemma allChars_trimEnd (f : ascii -> bool) (s : string) :
  allChars f s = true -> allChars f (trimEnd s) = true.
Proof.
  induction s as [|c s IH]; cbn; [reflexivity|].
  intros H. apply andb_true_iff in H as [Hc Hs]. specialize (IH Hs).
  destruct (trimEnd s).
  - destruct (isWhiteSpace c); cbn; [reflexivity | rewrite Hc; reflexivity].
  - cbn in IH |- *. rewrite Hc. exact IH.
Qed.

(** A text without a line feed, such as a lone header line, has fewer than
    two lines. *)
Lemma single_line_text (csvData : string) :
  allChars notLineFeed csvData = true ->
  (length (nonEmptyLines csvData) < 2)%nat.
Proof.
  intros H. unfold nonEmptyLines, trim.
  rewrite splitLines_single
    by (apply allChars_trimEnd, allChars_trimStart, H).
  cbn [List.filter]. destruct (_ <? _)%nat; cbn; lia.
Qed.

(** C10. A text with fewer than two non-blank lines (nothing at all, or a
    header without data rows) makes [computeEarthwork] throw the header-row
    error; the column inference is never consulted, whatever the header says. *)
Theorem too_few_lines_throws (csvData : string)
    (B medianWidth camber cutSlope fillSlope : Q) (fixedSpacing : option Q) :
  (length (nonEmptyLines csvData) < 2)%nat ->
  computeEarthwork csvData B medianWidth camber cutSlope fillSlope fixedSpacing
  = Throw (Error "Please enter data with a header row.").
Proof.
  intros Hlen. unfold computeEarthwork.
  destruct (Nat.ltb_spec (length (nonEmptyLines csvData)) 2) as [_|Hge].
  - reflexivity.
  - lia.
Qed.

Lemma too_few_lines_throws_witness :
  (length (nonEmptyLines "Chainage,Proposed_FRL,EGL") < 2)%nat /\
  computeEarthwork "Chainage,Proposed_FRL,EGL" 20 4 0 1 2 None
  = Throw (Error "Please enter data with a header row.").
Proof.
  split.
  - vm_compute. lia.
  - apply too_few_lines_throws. vm_compute. lia.
Defined.

(** C7. When the header has no column that the inference takes for the
    chainage, or none that it takes for the formation level, the computation
    ends in an error: no result, hence no row, is returned. *)
Theorem missing_column_throws (csvData : string)
    (B medianWidth camber cutSlope fillSlope : Q) (fixedSpacing : option Q) :
  let headers := headersOf (hd "" (nonEmptyLines csvData)) in
  Forall (fun h => headerSlot h <> Some "ch") headers \/
  Forall (fun h => headerSlot h <> Some "fgl") headers ->
  exists msg,
    computeEarthwork csvData B medianWidth camber cutSlope fillSlope fixedSpacing
    = Throw (Error msg).
Proof.
  intros headers Hmiss. unfold computeEarthwork.
  destruct (length (nonEmptyLines csvData) <? 2)%nat; [eauto|].
  fold headers.
  case_bool_decide as Hch; [eauto|].
  case_bool_decide as Hfgl; [eauto|].
  exfalso. destruct Hmiss as [Hall|Hall].
  - apply Hch. apply mapColumns_lookup_None. split; [apply lookup_empty | exact Hall].
  - apply Hfgl. apply mapColumns_lookup_None. split; [apply lookup_empty | exact Hall].
Qed.

Lemma missing_column_throws_witness :
  exists msg,
    computeEarthwork csvNoChainage 20 4 0 1 2 None = Throw (Error msg).
Proof.
  apply (missing_column_throws csvNoChainage 20 4 0 1 2 None).
  left.
  assert (E : headersOf (hd "" (nonEmptyLines csvNoChainage))
              = ["station"; "proposed_frl"; "egl"]) by (vm_compute; reflexivity).
  rewrite E. repeat constructor; vm_compute; discriminate.
Defined.

(** ** Shape of a successful run *)

Module RowFacts.
Import EarthworkRow.

Lemma withVolume_id (r : t) : withVolume r (spacing r) (segVolume r) = r.
Proof. destruct r; reflexivity. Qed.

Lemma volumePass_cons2 (fx : option Q) (r1 r2 : t) (rest : list t)
    (totals : option Q * option Q) :
  let totals' := accumulate totals r1 (segmentVolume fx r1 r2) in
  volumePass fx (r1 :: r2 :: rest) totals
  = (set_volume r1 (round3 (spacingOf fx r1 r2)) (segmentVolume fx r1 r2)
     :: fst (volumePass fx (r2 :: rest) totals'),
     snd (volumePass fx (r2 :: rest) totals')).
Proof.
  intros totals'.
  change (volumePass fx (r1 :: r2 :: rest) totals)
    with (let '(rest', final) := volumePass fx (r2 :: rest) totals' in
          (set_volume r1 (round3 (spacingOf fx r1 r2)) (segmentVolume fx r1 r2)
           :: rest', final)).
  destruct (volumePass fx (r2 :: rest) totals'); reflexivity.
Qed.

Lemma volumePass_length (fx : option Q) (rs : list t) :
  forall totals, length (fst (volumePass fx rs totals)) = length rs.
Proof.
  induction rs as [|r1 [|r2 rest] IH]; intros totals; try reflexivity.
  rewrite volumePass_cons2.
  cbn [fst length]. rewrite IH. reflexivity.
Qed.

(** Row [i] of the output, when row [i+1] exists. *)
Lemma volumePass_lookup (fx : option Q) (rs : list t) :
  forall totals (i : nat) (r1 r2 : t),
    rs !! i = Some r1 -> rs !! S i = Some r2 ->
    fst (volumePass fx rs totals) !! i
    = Some (set_volume r1 (round3 (spacingOf fx r1 r2)) (segmentVolume fx r1 r2)).
Proof.
  induction rs as [|a [|b rest] IH]; intros totals i r1 r2 H1 H2.
  - discriminate.
  - destruct i; discriminate.
  - rewrite volumePass_cons2. cbn [fst].
    destruct i as [|i].
    + cbn in H1, H2. injection H1 as ->. injection H2 as ->. reflexivity.
    + cbn [lookup list_lookup]. apply IH; assumption.
Qed.

(** Every output row is its input row with the second-pass fields set. *)
Lemma volumePass_rows (fx : option Q) (rs : list t) :
  forall totals,
    Forall2 (fun r r' => exists sp V, r' = withVolume r sp V)
      rs (fst (volumePass fx rs totals)).
Proof.
  induction rs as [|a [|b rest] IH]; intros totals.
  - constructor.
  - constructor; [|constructor].
    exists (spacing a), (segVolume a). symmetry. apply withVolume_id.
  - rewrite volumePass_cons2. cbn [fst].
    constructor; [|apply IH]. eexists _, _. reflexivity.
Qed.

(** The last row goes through the second pass untouched. *)
Lemma volumePass_last (fx : option Q) (rs : list t) :
  forall totals, last (fst (volumePass fx rs totals)) = last rs.
Proof.
  induction rs as [|a [|b rest] IH]; intros totals; try reflexivity.
  rewrite volumePass_cons2. cbn [fst].
  specialize (IH (accumulate totals a (segmentVolume fx a b))).
  pose proof (volumePass_length fx (b :: rest)
                (accumulate totals a (segmentVolume fx a b))) as Hlen.
  destruct (fst (volumePass fx (b :: rest) _)) as [|c out]; [discriminate|].
  exact IH.
Qed.

End RowFacts.

Lemma firstPass_Return (B medianWidth camber cutSlope fillSlope : Q)
    (colMap : gmap string nat) (lines : list string) :
  forall rs,
    firstPass B medianWidth camber cutSlope fillSlope colMap lines = Return rs ->
    exists stations,
      rs = map (computeRow B medianWidth camber cutSlope fillSlope) stations.
Proof.
  induction lines as [|line rest IH]; intros rs H; cbn in H.
  - injection H as <-. exists []. reflexivity.
  - destruct (parseLine colMap line) as [e|st]; cbn in H; [discriminate|].
    destruct (firstPass B medianWidth camber cutSlope fillSlope colMap rest)
      as [e|rows']; cbn in H; [discriminate|].
    destruct (IH rows' eq_refl) as [sts ->].
    injection H as <-. destruct st as [s|].
    + exists (s :: sts). reflexivity.
    + exists sts. reflexivity.
Qed.

(** A run that returns went through both passes. *)
Lemma computeEarthwork_Return (csvData : string)
    (B medianWidth camber cutSlope fillSlope : Q) (fixedSpacing : option Q)
    (res : CalculationResult) :
  computeEarthwork csvData B medianWidth camber cutSlope fillSlope fixedSpacing
  = Return res ->
  exists stations,
    let pass :=
      volumePass fixedSpacing
        (map (computeRow B medianWidth camber cutSlope fillSlope) stations)
        (Some 0, Some 0) in
    rows res = fst pass /\
    summary res = mkSummary (round3 <$> fst (snd pass)) (round3 <$> snd (snd pass))
                    (tc ← fst (snd pass); tf ← snd (snd pass);
                     Some (round3 (tc - tf))).
Proof.
  unfold computeEarthwork. intros H.
  destruct (length (nonEmptyLines csvData) <? 2)%nat; [discriminate|].
  case_bool_decide; [discriminate|].
  case_bool_decide; [discriminate|].
  destruct (firstPass _ _ _ _ _ _ _) as [e|rs] eqn:Hfirst; cbn in H; [discriminate|].
  apply firstPass_Return in Hfirst as [sts ->].
  exists sts. cbn zeta.
  destruct (volumePass fixedSpacing _ (Some 0, Some 0)) as [out [tc tf]].
  injection H as <-. split; reflexivity.
Qed.

(** ** Rounding respects equality of rationals *)

Lemma round3_wd (x y : Q) : (x == y)%Q -> round3 x = round3 y.
Proof.
  intros E. unfold round3, Math_round.
  assert (Ez : Qfloor (x * 1000 + (1 # 2)) = Qfloor (y * 1000 + (1 # 2)))
    by (apply Qfloor_comp; rewrite E; reflexivity).
  rewrite Ez. reflexivity.
Qed.

(** ** Areas are non-negative and add up *)

Section SortFacts.
Context {A : Type} (key : A -> Q).

Let keyLe (a b : A) : Prop := (key a <= key b)%Q.

Lemma insertSorted_Forall (P : A -> Prop) (a : A) (l : list A) :
  P a -> Forall P l -> Forall P (insertSorted key a l).
Proof.
  intros Ha Hl. induction Hl as [|b l Hb Hl IH]; cbn.
  - constructor; [exact Ha | constructor].
  - destruct (Qltb (key a) (key b)).
    + constructor; [exact Ha | constructor; assumption].
    + constructor; assumption.
Qed.

Lemma insertSorted_sorted (a : A) (l : list A) :
  StronglySorted keyLe l -> StronglySorted keyLe (insertSorted key a l).
Proof.
  induction 1 as [|b l Hl IH Hb]; cbn.
  - constructor; [constructor | constructor].
  - destruct (Qltb (key a) (key b)) eqn:E.
    + apply Qltb_lt in E. constructor; [constructor; assumption|].
      constructor; [apply Qlt_le_weak; exact E|].
      eapply Forall_impl; [exact Hb|].
      intros c Hc. unfold keyLe in *. apply Qlt_le_weak in E.
      eapply Qle_trans; eassumption.
    + apply Qltb_ge in E. constructor; [exact IH|].
      apply insertSorted_Forall; assumption.
Qed.

Lemma sortBy_sorted (l : list A) : StronglySorted keyLe (sortBy key l).
Proof.
  unfold sortBy.
  assert (G : forall acc, StronglySorted keyLe acc ->
                StronglySorted keyLe (fold_left (fun acc a => insertSorted key a acc) l acc)).
  { induction l as [|a l IH]; intros acc Hacc; cbn; [exact Hacc|].
    apply IH, insertSorted_sorted, Hacc. }
  apply G. constructor.
Qed.
End SortFacts.

Lemma filter_sorted (f : Q -> bool) (l : list Q) :
  StronglySorted Qle l -> StronglySorted Qle (List.filter f l).
Proof.
  induction 1 as [|a l Hl IH Ha]; cbn; [constructor|].
  destruct (f a); [|exact IH].
  constructor; [exact IH|].
  rewrite List.Forall_forall in *. intros x Hx.
  apply List.filter_In in Hx as [Hx _]. apply Ha, Hx.
Qed.

Lemma stripLoop_nonneg (road : Q -> Q) (groundPts : list Point) (xs : list Q) :
  StronglySorted Qle xs ->
  forall acc, (0 <= fst acc)%Q -> (0 <= snd acc)%Q ->
    (0 <= fst (stripLoop road groundPts xs acc))%Q /\
    (0 <= snd (stripLoop road groundPts xs acc))%Q.
Proof.
  induction xs as [|x1 [|x2 rest] IH]; intros Hs acc Hc Hf; cbn [stripLoop];
    try (split; assumption).
  inversion Hs as [|? ? Hrest Hall]; subst.
  inversion Hall as [|? ? H12 _]; subst.
  destruct (Qltb (Math_abs (x2 - x1)) 0.001); [apply IH; assumption|].
  apply IH; [assumption| |].
  - destruct (Qltb 0 _); cbn [fst]; [exact Hc|].
    assert (0 <= Math_abs (road ((x1 + x2) / 2)
                            - getInterpolatedEGL ((x1 + x2) / 2) groundPts)
                 * (x2 - x1))%Q
      by (apply Qmult_le_0_compat; [apply Qabs_nonneg | lra]).
    lra.
  - destruct (Qltb 0 _) eqn:E; cbn [snd]; [|exact Hf].
    apply Qltb_lt in E.
    assert (0 <= (road ((x1 + x2) / 2)
                  - getInterpolatedEGL ((x1 + x2) / 2) groundPts)
                 * (x2 - x1))%Q
      by (apply Qmult_le_0_compat; lra).
    lra.
Qed.

Lemma geometry_areas_nonneg (B medianWidth camber cutSlope fillSlope : Q)
    (s : Station) :
  let g := geometry B medianWidth camber cutSlope fillSlope s in
  (0 <= g_areaCut g)%Q /\ (0 <= g_areaFill g)%Q.
Proof.
  cbn zeta. unfold geometry. cbn [g_areaCut g_areaFill].
  apply stripLoop_nonneg; cbn [fst snd]; try lra.
  apply filter_sorted.
  apply (sortBy_sorted (A:=Q) id).
Qed.

Lemma Math_round_bounds (x : Q) :
  (x - (1 # 2) < inject_Z (Math_round x))%Q /\ (inject_Z (Math_round x) <= x + (1 # 2))%Q.
Proof.
  unfold Math_round.
  pose proof (Qfloor_le (x + (1 # 2))) as Hle.
  pose proof (Qlt_floor (x + (1 # 2))) as Hlt.
  rewrite inject_Z_plus in Hlt. change (inject_Z 1) with 1%Q in Hlt.
  split; lra.
Qed.

Lemma round3_nonneg (x : Q) : (0 <= x)%Q -> (0 <= round3 x)%Q.
Proof.
  intros Hx. unfold round3.
  assert (Hk : (0 <= Math_round (x * 1000))%Z).
  { unfold Math_round. change 0%Z with (Qfloor 0).
    apply Qfloor_resp_le. lra. }
  rewrite Zle_Qle in Hk. change (inject_Z 0) with 0%Q in Hk.
  apply Qle_shift_div_l; lra.
Qed.

(** Rounding the two parts and the sum separately loses at most 0.001. *)
Lemma round3_sum_tolerance (a f : Q) :
  (Qabs (round3 a + round3 f - round3 (a + f)) <= 0.001)%Q.
Proof.
  unfold round3.
  destruct (Math_round_bounds (a * 1000)) as [La Ua].
  destruct (Math_round_bounds (f * 1000)) as [Lf Uf].
  destruct (Math_round_bounds ((a + f) * 1000)) as [Ls Us].
  set (ka := Math_round (a * 1000)) in *.
  set (kf := Math_round (f * 1000)) in *.
  set (ks := Math_round ((a + f) * 1000)) in *.
  assert (Hd : (-1 <= ka + kf - ks <= 1)%Z).
  { assert (H1 : (inject_Z (ka + kf - ks) < inject_Z 2)%Q).
    { unfold Z.sub. rewrite !inject_Z_plus, inject_Z_opp.
      change (inject_Z 2) with 2%Q. lra. }
    assert (H2 : (inject_Z (-2) < inject_Z (ka + kf - ks))%Q).
    { unfold Z.sub. rewrite !inject_Z_plus, inject_Z_opp.
      change (inject_Z (-2)) with (-2)%Q. lra. }
    rewrite <- Zlt_Qlt in H1, H2. lia. }
  destruct Hd as [Hd1 Hd2].
  rewrite Zle_Qle in Hd1, Hd2.
  unfold Z.sub in Hd1, Hd2. rewrite !inject_Z_plus, inject_Z_opp in Hd1, Hd2.
  change (inject_Z (-1)) with (-1)%Q in Hd1. change (inject_Z 1) with 1%Q in Hd2.
  apply Qabs_Qle_condition. const_div. split; lra.
Qed.

Lemma round3_le (x y : Q) : x <= y -> round3 x <= round3 y.
Proof.
  intros H. unfold round3, Math_round.
  assert (Hz : (Qfloor (x * 1000 + (1 # 2)) <= Qfloor (y * 1000 + (1 # 2)))%Z)
    by (apply Qfloor_resp_le; lra).
  rewrite Zle_Qle in Hz. const_div. lra.
Qed.

Lemma round3_small (x : Q) : 0 <= x -> x < 0.0005 -> round3 x == 0.
Proof.
  intros H0 H1. unfold round3.
  destruct (Math_round_bounds (x * 1000)) as [L U].
  assert (E : Math_round (x * 1000) = 0%Z).
  { assert (Ha : (inject_Z (-1) < inject_Z (Math_round (x * 1000)))%Q)
      by (change (inject_Z (-1)) with (-1); lra).
    assert (Hb : (inject_Z (Math_round (x * 1000)) < inject_Z 1)%Q)
      by (change (inject_Z 1) with 1; lra).
    rewrite <- Zlt_Qlt in Ha, Hb. lia. }
  rewrite E. reflexivity.
Qed.


(** Every row of a returned result is a row of the first pass, up to the two
    fields that the second pass sets. *)
Lemma computed_rows (csvData : string)
    (B medianWidth camber cutSlope fillSlope : Q) (fixedSpacing : option Q)
    (res : CalculationResult) (r : EarthworkRow.t) :
  computeEarthwork csvData B medianWidth camber cutSlope fillSlope fixedSpacing
  = Return res ->
  r ∈ rows res ->
  exists s sp V,
    r = withVolume (computeRow B medianWidth camber cutSlope fillSlope s) sp V.
Proof.
  intros Hrun Hin.
  destruct (computeEarthwork_Return _ _ _ _ _ _ _ _ Hrun) as [sts [Hrows _]].
  rewrite Hrows in Hin. apply list_elem_of_lookup in Hin as [i Hi].
  pose proof (RowFacts.volumePass_rows fixedSpacing
                (map (computeRow B medianWidth camber cutSlope fillSlope) sts)
                (Some 0, Some 0))
    as Hall.
  destruct (Forall2_lookup_r _ _ _ _ _ Hall Hi) as (r0 & Hr0 & sp & V & ->).
  apply list_lookup_fmap_Some in Hr0 as (s & -> & _).
  exists s, sp, V. reflexivity.
Qed.

(** C5. In every row of a returned result the stored cut and fill areas are
    non-negative, and their sum differs from the stored total area by at most
    the rounding step 0.001.  The design parameters and the levels parsed
    from the row's data line are of ordinary size: slope ratios between 1:100
    and 100:1, widths up to 1 km, levels within 10 km of the datum. *)
Theorem area_decomposition (csvData : string)
    (B medianWidth camber cutSlope fillSlope : Q) (fixedSpacing : option Q)
    (res : CalculationResult) (r : EarthworkRow.t) :
  ordinaryParameters B medianWidth camber cutSlope fillSlope ->
  computeEarthwork csvData B medianWidth camber cutSlope fillSlope fixedSpacing
  = Return res ->
  r ∈ rows res ->
  ordinaryLevels r ->
  (0 <= EarthworkRow.areaCut r)%Q /\ (0 <= EarthworkRow.areaFill r)%Q /\
  (Qabs (EarthworkRow.areaCut r + EarthworkRow.areaFill r - EarthworkRow.area r)
   <= 0.001)%Q.
Proof.
  intros _ Hrun Hin _.
  destruct (computed_rows _ _ _ _ _ _ _ _ _ Hrun Hin) as (s & sp & V & ->).
  cbn [withVolume computeRow EarthworkRow.areaCut EarthworkRow.areaFill
       EarthworkRow.area].
  destruct (geometry_areas_nonneg B medianWidth camber cutSlope fillSlope s)
    as [Hc Hf].
  split; [apply round3_nonneg, Hc|].
  split; [apply round3_nonneg, Hf|].
  apply round3_sum_tolerance.
Qed.

Lemma area_decomposition_witness :
  (0 <= EarthworkRow.areaCut demoRow)%Q /\ (0 <= EarthworkRow.areaFill demoRow)%Q /\
  (Qabs (EarthworkRow.areaCut demoRow + EarthworkRow.areaFill demoRow
         - EarthworkRow.area demoRow) <= 0.001)%Q.
Proof.
  apply (area_decomposition csvA 20 4 0 1 2 None demoRun demoRow).
  - unfold ordinaryParameters. repeat split; ordinary_size.
  - vm_compute. reflexivity.
  - apply list_elem_of_lookup. exists 0%nat. vm_compute. reflexivity.
  - unfold ordinaryLevels. repeat split; ordinary_size.
Defined.

(** ** Toes lie outside the formation *)

Lemma getIntersection_on_ray (p1 p2 p3 p4 pt : Point) :
  getIntersection p1 p2 p3 p4 = Some pt ->
  exists ua, (0 <= ua)%Q /\ (ua <= 1)%Q /\ px pt = (px p1 + ua * (px p2 - px p1))%Q.
Proof.
  unfold getIntersection. cbn zeta.
  destruct (Qeq_bool _ 0); [discriminate|].
  match goal with
  | |- context [Qle_bool 0 ?ua && Qle_bool ?ua 1 && _ && _] =>
      destruct (Qle_bool 0 ua) eqn:E0; [|discriminate];
      destruct (Qle_bool ua 1) eqn:E1; [|discriminate];
      exists ua
  end.
  cbn [andb] in H. destruct (_ && _); [|discriminate].
  injection H as <-. apply Qle_bool_iff in E0, E1. repeat split; assumption.
Qed.

Lemma findToe_Some (accept : Point -> bool) (rayStart rayEnd : Point)
    (extendedGround : list Point) (pt : Point) :
  findToe accept rayStart rayEnd extendedGround = Some pt ->
  accept pt = true /\
  exists a b, getIntersection rayStart rayEnd a b = Some pt.
Proof.
  induction extendedGround as [|a [|b rest] IH]; cbn [findToe]; try discriminate.
  destruct (getIntersection rayStart rayEnd a b) as [q|] eqn:E; [|exact IH].
  destruct (accept q) eqn:Ea; [|exact IH].
  intros [= ->]. split; [exact Ea | eauto].
Qed.

Lemma round3_0 : (round3 0 == 0)%Q.
Proof. reflexivity. Qed.

(** C9. For positive slope ratios, the left toe is at or left of the left
    formation edge and the right toe at or right of the right one; when a
    side's scan accepts no intersection, its toe is the formation edge, at
    the ground level found there, and the stored toe distance is zero. *)
Theorem toes_outside_formation (B medianWidth camber cutSlope fillSlope : Q)
    (s : Station) :
  (0 < cutSlope)%Q -> (0 < fillSlope)%Q ->
  let g := geometry B medianWidth camber cutSlope fillSlope s in
  let r := computeRow B medianWidth camber cutSlope fillSlope s in
  (px (g_toeL g) <= (- B) / 2)%Q /\ (B / 2 <= px (g_toeR g))%Q /\
  (g_scanL g = None ->
   g_toeL g = mkPoint ((- B) / 2) (g_gL_at_edge g) /\ (EarthworkRow.distL r == 0)%Q) /\
  (g_scanR g = None ->
   g_toeR g = mkPoint (B / 2) (g_gR_at_edge g) /\ (EarthworkRow.distR r == 0)%Q).
Proof.
  intros _ _ g r.
  assert (HL : g_toeL g = default (mkPoint ((- B) / 2) (g_gL_at_edge g)) (g_scanL g))
    by reflexivity.
  assert (HR : g_toeR g = default (mkPoint (B / 2) (g_gR_at_edge g)) (g_scanR g))
    by reflexivity.
  assert (EL : EarthworkRow.distL r = round3 (Math_abs (px (g_toeL g) - (- B) / 2)))
    by reflexivity.
  assert (ER : EarthworkRow.distR r = round3 (Math_abs (px (g_toeR g) - B / 2)))
    by reflexivity.
  repeat split.
  - rewrite HL. destruct (g_scanL g) as [pt|] eqn:E; cbn; [|lra].
    apply findToe_Some in E as [_ (a & b & E)].
    apply getIntersection_on_ray in E as (ua & H0 & H1 & ->). cbn [px].
    assert (0 <= ua * 1000)%Q by (apply Qmult_le_0_compat; lra). lra.
  - rewrite HR. destruct (g_scanR g) as [pt|] eqn:E; cbn; [|lra].
    apply findToe_Some in E as [_ (a & b & E)].
    apply getIntersection_on_ray in E as (ua & H0 & H1 & ->). cbn [px].
    assert (0 <= ua * 1000)%Q by (apply Qmult_le_0_compat; lra). lra.
  - rewrite HL, H. reflexivity.
  - rewrite EL, HL, H. cbn [default px].
    rewrite (round3_wd (Math_abs ((- B) / 2 - (- B) / 2)) 0); [apply round3_0|].
    unfold Math_abs. assert (E0 : ((- B) / 2 - (- B) / 2 == 0)%Q) by lra.
    rewrite E0. reflexivity.
  - rewrite HR, H. reflexivity.
  - rewrite ER, HR, H. cbn [default px].
    rewrite (round3_wd (Math_abs (B / 2 - B / 2)) 0); [apply round3_0|].
    unfold Math_abs. assert (E0 : (B / 2 - B / 2 == 0)%Q) by lra.
    rewrite E0. reflexivity.
Qed.

Lemma toes_outside_formation_witness :
  (px (g_toeL (geometry 20 4 0 1 2 scenarioA)) <= (- (20)) / 2)%Q /\
  (20 / 2 <= px (g_toeR (geometry 20 4 0 1 2 scenarioA)))%Q.
Proof.
  destruct (toes_outside_formation 20 4 0 1 2 scenarioA) as (HL & HR & _).
  - reflexivity.
  - reflexivity.
  - split; assumption.
Defined.

(** A fill 3000 m high: the 1000 m ray ends above the ground on both sides,
    no intersection is accepted and the toes stay at the formation edges. *)
Example toe_fallback :
  let g := geometry 20 4 0 1 1 (mkStation "0+000" 0 3000 0 0 0 0) in
  g_scanL g = None /\ g_scanR g = None /\
  (px (g_toeL g) == -10)%Q /\ (px (g_toeR g) == 10)%Q.
Proof. vm_compute. repeat split; reflexivity. Qed.

(** ** Classification against the 0.01 m2 threshold *)

Lemma classify_Cut (a f : Q) :
  classify a f = Cut <-> (0.01 < a)%Q /\ (f < 0.01)%Q.
Proof.
  unfold classify. rewrite <- !Qltb_lt.
  destruct (Qltb 0.01 a), (Qltb f 0.01), (Qltb 0.01 f), (Qltb a 0.01); cbn;
    intuition discriminate.
Qed.

Lemma classify_Fill (a f : Q) :
  classify a f = Fill <-> (0.01 < f)%Q /\ (a < 0.01)%Q.
Proof.
  unfold classify.
  destruct (Qltb 0.01 a) eqn:E1, (Qltb f 0.01) eqn:E2,
           (Qltb 0.01 f) eqn:E3, (Qltb a 0.01) eqn:E4; cbn;
    try apply Qltb_lt in E1; try apply Qltb_lt in E2;
    try apply Qltb_lt in E3; try apply Qltb_lt in E4;
    try apply Qltb_ge in E1; try apply Qltb_ge in E2;
    try apply Qltb_ge in E3; try apply Qltb_ge in E4;
    split; try discriminate; try tauto; intros [? ?]; lra.
Qed.

Lemma classify_Mixed (a f : Q) :
  classify a f = Mixed <-> (0.01 < a)%Q /\ (0.01 < f)%Q.
Proof.
  unfold classify.
  destruct (Qltb 0.01 a) eqn:E1, (Qltb f 0.01) eqn:E2,
           (Qltb 0.01 f) eqn:E3, (Qltb a 0.01) eqn:E4; cbn;
    try apply Qltb_lt in E1; try apply Qltb_lt in E2;
    try apply Qltb_lt in E3; try apply Qltb_lt in E4;
    try apply Qltb_ge in E1; try apply Qltb_ge in E2;
    try apply Qltb_ge in E3; try apply Qltb_ge in E4;
    split; try discriminate; try tauto; intros [? ?]; lra.
Qed.



(** C4, at the input where it fails.  Formation width 4, median width 2, no
    camber, slopes 1 and 2; road at level 0, ground 5, -0.02, 0.02, 5.  The
    fill area is exactly 0.01 and the cut area is 0.566, so only the cut area
    exceeds the threshold, and yet the row is classified [Level], not [Cut]:
    the test for [Cut] asks for a fill area strictly below 0.01. *)
Theorem classification_boundary_gap :
  let g := geometry 4 2 0 1 2 (mkStation "0+000" 0 0 5 (-0.02) 0.02 5) in
  (g_areaFill g == 0.01)%Q /\ (0.01 < g_areaCut g)%Q /\
  match computeEarthwork csvBoundary 4 2 0 1 2 None with
  | Return res =>
      match rows res with
      | [r] => EarthworkRow.type r = Level /\
               (EarthworkRow.areaCut r == 0.566)%Q /\
               (EarthworkRow.areaFill r == 0.01)%Q
      | _ => False
      end
  | Throw _ => False
  end.
Proof. vm_compute. repeat split; reflexivity. Qed.

(** ** Volumes and totals of the second pass *)

Lemma round3_error (x : Q) : (Qabs (round3 x - x) <= 0.0005)%Q.
Proof.
  unfold round3. destruct (Math_round_bounds (x * 1000)) as [L U].
  apply Qabs_Qle_condition. const_div. split; lra.
Qed.

Lemma isThousandth_round3 (x : Q) : isThousandth (round3 x).
Proof. exists (Math_round (x * 1000)). reflexivity. Qed.

Lemma roundedTo3_round3 (x : Q) : roundedTo3 (round3 x) x.
Proof. split; [apply isThousandth_round3 | apply round3_error]. Qed.

(** The spacing that the code takes is the one that the specification words. *)
Lemma spacingOf_segmentLength (fx : option Q) (r1 r2 : EarthworkRow.t) :
  spacingOf fx r1 r2 = segmentLength fx r1 r2.
Proof.
  unfold spacingOf, segmentLength, Math_abs. destruct fx as [s|]; [|reflexivity].
  destruct (Qlt_le_dec 0 s) as [H | H];
    [apply Qltb_lt in H | apply Qltb_ge in H]; rewrite H; reflexivity.
Qed.

Lemma segmentVolume_rounded (fx : option Q) (r1 r2 : EarthworkRow.t) :
  roundedTo3 (segmentVolume fx r1 r2) (endAreaVolume fx r1 r2).
Proof.
  unfold segmentVolume, endAreaVolume. rewrite spacingOf_segmentLength.
  apply roundedTo3_round3.
Qed.

(** C2. In a returned result, a row followed by another one stores the
    average-end-area volume of the pair, [(A1 + A2) / 2 * L], rounded to three
    decimals: a whole number of thousandths within 0.0005 of it.  [L] is the
    fixed spacing when one is supplied and positive and the chainage gap
    otherwise, and the row stores it rounded in the same way.  The last row
    keeps the initial volume [0] and has no spacing.  Chainages, areas and
    the fixed spacing are of ordinary size. *)
Theorem segment_volume_average_end_area (csvData : string)
    (B medianWidth camber cutSlope fillSlope : Q) (fixedSpacing : option Q)
    (res : CalculationResult) :
  computeEarthwork csvData B medianWidth camber cutSlope fillSlope fixedSpacing
  = Return res ->
  (forall (i : nat) (r r' : EarthworkRow.t),
      rows res !! i = Some r -> rows res !! S i = Some r' ->
      ordinaryRow r -> ordinaryRow r' -> ordinarySpacing fixedSpacing ->
      roundedTo3 (EarthworkRow.segVolume r) (endAreaVolume fixedSpacing r r') /\
      exists L, EarthworkRow.spacing r = Some L /\
                roundedTo3 L (segmentLength fixedSpacing r r')) /\
  (forall r, last (rows res) = Some r ->
             EarthworkRow.segVolume r = 0%Q /\ EarthworkRow.spacing r = None).
Proof.
  intros Hrun.
  destruct (computeEarthwork_Return _ _ _ _ _ _ _ _ Hrun) as [sts [Hrows _]].
  set (rs := map (computeRow B medianWidth camber cutSlope fillSlope) sts) in *.
  split.
  - intros i r r' Hi Hi' _ _ _.
    rewrite Hrows in Hi, Hi'.
    pose proof (RowFacts.volumePass_rows fixedSpacing rs (Some 0, Some 0)) as Hall.
    destruct (Forall2_lookup_r _ _ _ _ _ Hall Hi) as (r0 & Hr0 & _).
    destruct (Forall2_lookup_r _ _ _ _ _ Hall Hi') as (r0' & Hr0' & sp & V & ->).
    rewrite (RowFacts.volumePass_lookup fixedSpacing rs (Some 0, Some 0)
               i r0 r0' Hr0 Hr0') in Hi.
    injection Hi as <-. split.
    + apply (segmentVolume_rounded fixedSpacing r0 r0').
    + exists (round3 (spacingOf fixedSpacing r0 r0')). split; [reflexivity|].
      rewrite spacingOf_segmentLength. apply roundedTo3_round3.
  - intros r Hlast. rewrite Hrows, RowFacts.volumePass_last in Hlast.
    apply last_Some in Hlast as [front Hfront].
    assert (Hin : r ∈ rs) by (rewrite Hfront; set_solver).
    apply list_elem_of_fmap in Hin as (s & -> & _). split; reflexivity.
Qed.

Lemma segment_volume_average_end_area_witness :
  (roundedTo3 (EarthworkRow.segVolume demoRow) (endAreaVolume None demoRow demoRow2) /\
   exists L, EarthworkRow.spacing demoRow = Some L /\
             roundedTo3 L (segmentLength None demoRow demoRow2)) /\
  (roundedTo3 (EarthworkRow.segVolume spacedRow)
     (endAreaVolume (Some 12.37) spacedRow spacedRow2) /\
   exists L, EarthworkRow.spacing spacedRow = Some L /\
             roundedTo3 L (segmentLength (Some 12.37) spacedRow spacedRow2)).
Proof.
  assert (H1 : computeEarthwork csvA 20 4 0 1 2 None = Return demoRun)
    by (vm_compute; reflexivity).
  assert (H2 : computeEarthwork csvMixed 20 4 0 1 2 (Some 12.37) = Return spacedRun)
    by (vm_compute; reflexivity).
  split.
  - apply (proj1 (segment_volume_average_end_area csvA 20 4 0 1 2 None demoRun H1)
             0%nat demoRow demoRow2).
    + vm_compute. reflexivity.
    + vm_compute. reflexivity.
    + repeat split; ordinary_size.
    + repeat split; ordinary_size.
    + exact I.
  - apply (proj1 (segment_volume_average_end_area csvMixed 20 4 0 1 2 (Some 12.37)
                    spacedRun H2) 2%nat spacedRow spacedRow2).
    + vm_compute. reflexivity.
    + vm_compute. reflexivity.
    + repeat split; ordinary_size.
    + repeat split; ordinary_size.
    + ordinary_size.
Defined.

(** The second pair of the witness: areas 27.42 and 0 m2 at the fixed spacing
    12.37 m give 169.5927 m3, stored as 169.593, and the spacing is stored as
    12.37. *)
Example fixed_spacing_volume :
  (endAreaVolume (Some 12.37) spacedRow spacedRow2 == 169.5927)%Q /\
  (EarthworkRow.segVolume spacedRow == 169.593)%Q /\
  match EarthworkRow.spacing spacedRow with
  | Some L => (L == 12.37)%Q
  | None => False
  end.
Proof. vm_compute. repeat split; reflexivity. Qed.

(** Scenario B of the specification: two fill sections of 150 m2, 20 m apart. *)
Example scenario_B_volume :
  match rows demoRun !! 0%nat with
  | Some r =>
      (EarthworkRow.segVolume r == 3000)%Q /\
      match EarthworkRow.spacing r with Some L => (L == 20)%Q | None => False end
  | None => False
  end.
Proof. vm_compute. split; reflexivity. Qed.

(** *** Apportionment *)






(** The guard [area || 1] keeps the divisor away from zero. *)
Lemma divide_orOne (a x : Q) :
  divide a (orOne x) = Some (a / (if Qeq_bool x 0 then 1 else x))%Q.
Proof.
  unfold divide, orOne. destruct (Qeq_bool x 0) eqn:E; [reflexivity|].
  rewrite E. reflexivity.
Qed.

(** While the totals are numbers, a segment adds its two shares to them. *)
Lemma accumulate_shares (tc tf : Q) (r : EarthworkRow.t) (V : Q) :
  exists tc' tf',
    accumulate (Some tc, Some tf) r V = (Some tc', Some tf') /\
    (tc' == tc + cutShare r V)%Q /\ (tf' == tf + fillShare r V)%Q.
Proof.
  unfold accumulate, cutShare, fillShare, denominator. rewrite !divide_orOne.
  cbn [fst snd addTo mbind option_bind fmap option_fmap option_map].
  destruct (EarthworkRow.type r); eexists _, _;
    (split; [reflexivity|]); split; unfold Qdiv; ring.
Qed.








(** The run of the witness starts its four segments at a [Fill], a [Cut], a
    [Mixed] and a zero-area [Level] row; it cuts 1092.95 m3 and fills
    2335.45 m3, and the 1500 m3 of the segment that starts at the level row
    go to neither total. *)
Example mixed_run_segments :
  map EarthworkRow.type (rows mixedRun) = [Fill; Cut; Mixed; Level; Fill] /\
  match rows mixedRun !! 3%nat with
  | Some r => (EarthworkRow.area r == 0)%Q /\ (EarthworkRow.segVolume r == 1500)%Q
  | None => False
  end /\
  match totalCut (summary mixedRun), totalFill (summary mixedRun) with
  | Some tc, Some tf => (tc == 1092.95)%Q /\ (tf == 2335.45)%Q
  | _, _ => False
  end.
Proof. vm_compute. repeat split; reflexivity. Qed.

(** The mixed-section example of the specification: area 100 split 30 / 70,
    segment volume 50. *)
Example mixed_apportionment :
  let r := EarthworkRow.mk "0+000" 0 0 0 0 0 0 0 0 0 Mixed 0 0 0 0 0 0
             100 30 70 (Some 20%Q) 50 in
  (cutShare r 50 == 15)%Q /\ (fillShare r 50 == 35)%Q /\
  match accumulate (Some 0%Q, Some 0%Q) r 50 with
  | (Some c, Some f) => (c == 15)%Q /\ (f == 35)%Q
  | _ => False
  end.
Proof. vm_compute. repeat split; reflexivity. Qed.

(** What the guard is for: a zero area as the divisor would make the share,
    and with it the total, a value that is not a number. *)
Example unguarded_division :
  divide 0 0 = None /\ addTo (Some 0%Q) (Qmult 50 <$> divide 0 0) = None /\
  divide 0 (orOne 0) = Some (0 / 1)%Q.
Proof. repeat split; reflexivity. Qed.

(** ** Chainage decoding *)

Example chainage_decoding :
  chainageToMeters (Some "0+020") = Return (Some 20%Q) /\
  chainageToMeters (Some "1+005") = Return (Some 1005%Q) /\
  chainageToMeters (Some "250") = Return (Some 250%Q) /\
  chainageToMeters (Some "12,500m") = Return (Some 12500%Q) /\
  chainageToMeters (Some "12.5") = Return (Some 13%Q) /\
  chainageToMeters (Some "abc") = Return None.
Proof. repeat split; vm_compute; reflexivity. Qed.

Lemma isDigit_not_space (c : ascii) : isDigit c = true -> isWhiteSpace c = false.
Proof.
  unfold isDigit, isWhiteSpace. intros H.
  apply andb_true_iff in H as [H1 H2].
  apply Nat.leb_le in H1, H2.
  destruct (Nat.leb_spec (nat_of_ascii c) 13); [lia|].
  rewrite andb_false_r. cbn. apply Nat.eqb_neq. lia.
Qed.

Lemma isDigit_not_plus (c : ascii) : isDigit c = true -> Ascii.eqb c "+" = false.
Proof.
  intros H. apply Ascii.eqb_neq. intros ->. discriminate H.
Qed.

Lemma trimEnd_no_space (s : string) :
  allChars (fun c => negb (isWhiteSpace c)) s = true -> trimEnd s = s.
Proof.
  induction s as [|c s IH]; cbn; [reflexivity|].
  intros H. apply andb_true_iff in H as [Hc Hs].
  rewrite (IH Hs). apply negb_true_iff in Hc. rewrite Hc.
  destruct s; reflexivity.
Qed.

Lemma splitAtPlus_digits (km m : string) :
  allDigits km = true ->
  forall pre, splitAtPlus pre (km ++ String "+" m) = Some (pre ++ km, m).
Proof.
  induction km as [|c km IH]; intros H pre.
  - rewrite append_nil, append_empty_r. reflexivity.
  - cbn in H. apply andb_true_iff in H as [Hc Hs].
    rewrite append_cons. cbn [splitAtPlus].
    rewrite (isDigit_not_plus c Hc), (IH Hs), append_assoc. reflexivity.
Qed.

Lemma scanDigits_value_count (s : string) :
  forall acc n n',
    fst (fst (scanDigits acc n s)) = fst (fst (scanDigits acc n' s)).
Proof.
  induction s as [|c s IH]; intros acc n n'; cbn [scanDigits]; [reflexivity|].
  destruct (isDigit c); [apply IH | reflexivity].
Qed.

(** Zero padding on the left does not change the value read. *)
Lemma parseInt_padStart (m : string) :
  allDigits m = true -> parseInt (padStart 3 "0" m) = parseInt m.
Proof.
  intros H. unfold padStart.
  destruct (3 - String.length m)%nat as [|k] eqn:E; [reflexivity|].
  generalize (S k). intros j. clear E k.
  induction j as [|j IHj]; [reflexivity|].
  cbn [repeat string_of_list_ascii]. rewrite append_cons.
  unfold parseInt in *. cbn [scanDigits].
  change (isDigit "0") with true. cbv iota.
  change (10 * 0 + digitValue "0")%Z with 0%Z.
  rewrite <- IHj. apply scanDigits_value_count.
Qed.

(** The stationing form [D+DDD]: kilometres, a plus sign, and a remainder of
    one to three digits read as metres. *)
Lemma stationing_decodes (km m : string) :
  allDigits km = true -> km <> "" ->
  allDigits m = true -> (1 <= String.length m <= 3)%nat ->
  chainageToMeters (Some (km ++ String "+" m))
  = Return (Some (inject_Z (parseInt km * 1000 + parseInt m))).
Proof.
  intros Hkm Hne Hm Hlen. unfold chainageToMeters.
  assert (Htrim : trim (km ++ String "+" m) = km ++ String "+" m).
  { unfold trim.
    assert (Hs : trimStart (km ++ String "+" m) = km ++ String "+" m).
    { destruct km as [|c km]; [contradiction|].
      rewrite append_cons. cbn in Hkm |- *.
      apply andb_true_iff in Hkm as [Hc _].
      rewrite (isDigit_not_space c Hc). reflexivity. }
    rewrite Hs. apply trimEnd_no_space.
    rewrite allChars_app. cbn [allChars].
    rewrite (allChars_impl isDigit _ km), (allChars_impl isDigit _ m);
      try assumption;
      try (intros c Hc; rewrite (isDigit_not_space c Hc); reflexivity).
    reflexivity. }
  rewrite Htrim. unfold matchStationing.
  rewrite (splitAtPlus_digits km m Hkm), append_nil, Hkm, Hm.
  assert (H1 : (1 <=? String.length km)%nat = true).
  { apply Nat.leb_le. destruct km; [contradiction | cbn; lia]. }
  assert (H2 : (1 <=? String.length m)%nat = true) by (apply Nat.leb_le; lia).
  assert (H3 : (String.length m <=? 3)%nat = true) by (apply Nat.leb_le; lia).
  rewrite H1, H2, H3. cbn [andb].
  rewrite (parseInt_padStart m Hm). reflexivity.
Qed.

(** The other branch of the decoder: the token, less a final [m] and its
    commas and spaces, goes through [Number]; a number is rounded to the
    nearest integer, anything else is NaN. *)
Lemma plain_token_decodes (tok : string) :
  matchStationing (trim tok) = None ->
  chainageToMeters (Some tok)
  = Return
      match Number (removeChars (fun c => Ascii.eqb c "," || Ascii.eqb c " ")
                      (dropMetreSuffix (trim tok))) with
      | Some num => Some (inject_Z (Math_round num))
      | None => None
      end.
Proof.
  intros H. unfold chainageToMeters. rewrite H.
  destruct (Number _); reflexivity.
Qed.

(** C6, at the input where it fails.  An empty chainage token, and likewise
    a token that is only the suffix [m], is not a number, but [Number] of the
    empty string is 0: the decoder answers 0 instead of NaN, and the data line
    [,100,95] is kept as a station at chainage 0. *)
Theorem empty_chainage_decodes_to_zero :
  chainageToMeters (Some "") = Return (Some 0%Q) /\
  chainageToMeters (Some "m") = Return (Some 0%Q) /\
  match computeEarthwork csvEmptyChainage 20 4 0 1 2 None with
  | Return res =>
      match rows res with
      | [r] => EarthworkRow.chainage r = "" /\ EarthworkRow.chainage_m r = 0%Q
      | _ => False
      end
  | Throw _ => False
  end.
Proof.
  split; [|split]; vm_compute; [reflexivity | reflexivity | split; reflexivity].
Qed.

(** ** Rounding at the point of storage *)

Lemma round3_idempotent (x : Q) : (round3 (round3 x) == round3 x)%Q.
Proof.
  unfold round3 at 1 3.
  set (k := Math_round (x * 1000)).
  assert (E : Math_round (round3 x * 1000) = k).
  { destruct (Math_round_bounds (round3 x * 1000)) as [L U].
    assert (Ek : (round3 x * 1000 == inject_Z k)%Q).
    { unfold round3. fold k. field. }
    assert (H1 : (inject_Z (k - 1) < inject_Z (Math_round (round3 x * 1000)))%Q).
    { unfold Z.sub. rewrite inject_Z_plus, inject_Z_opp.
      change (inject_Z 1) with 1%Q. lra. }
    assert (H2 : (inject_Z (Math_round (round3 x * 1000)) < inject_Z (k + 1))%Q).
    { rewrite inject_Z_plus. change (inject_Z 1) with 1%Q. lra. }
    rewrite <- Zlt_Qlt in H1, H2. lia. }
  rewrite E. reflexivity.
Qed.

Lemma rounded_fields_stable (B medianWidth camber cutSlope fillSlope : Q)
    (s : Station) :
  Forall (fun v => (round3 v == v)%Q)
    (roundedFields (computeRow B medianWidth camber cutSlope fillSlope s)).
Proof.
  unfold roundedFields. repeat constructor; apply round3_idempotent.
Qed.

(** C8, at the input where it fails.  With a fill slope ratio of 1.5625 the
    row of a fill section stores [usedSlope] = 1.5625 as supplied, while its
    rounding to three decimals is 1.563: this one numeric field bypasses
    [round3], unlike the formation and median widths stored next to it. *)
Theorem usedSlope_not_rounded :
  match computeEarthwork csvFill 20 4 0 1 (25 # 16) None with
  | Return res =>
      match rows res with
      | [r] => (EarthworkRow.usedSlope r == 1.5625)%Q /\
               (round3 (EarthworkRow.usedSlope r) == 1.563)%Q /\
               ~ (EarthworkRow.usedSlope r == round3 (EarthworkRow.usedSlope r))%Q
      | _ => False
      end
  | Throw _ => False
  end.
Proof. vm_compute. repeat split; try reflexivity. discriminate. Qed.

(** ** Scenario A: a pure fill *)

(** The fields of [geometry], one equation each: what an iteration of the
    first loop computes, in the order of the source. *)
Section Fields.
Variables (B medianWidth camber cutSlope fillSlope : Q) (s : Station).
Let g := geometry B medianWidth camber cutSlope fillSlope s.

Lemma geometry_groundPts :
  g_groundPts g = sortBy px
      [ mkPoint (-15) (st_egl15L s); mkPoint (- (medianWidth / 2)) (st_eglMedL s);
        mkPoint (medianWidth / 2) (st_eglMedR s); mkPoint 15 (st_egl15R s) ].
Proof. reflexivity. Qed.

Lemma geometry_edges :
  g_camberDrop g = (B / 2) * (camber / 100) /\
  g_fglL_edge g = st_fglC s - g_camberDrop g /\
  g_fglR_edge g = st_fglC s - g_camberDrop g /\
  g_gL_at_edge g = getInterpolatedEGL ((- B) / 2) (g_groundPts g) /\
  g_gR_at_edge g = getInterpolatedEGL (B / 2) (g_groundPts g) /\
  g_isCutL g = Qltb 0 (g_gL_at_edge g - g_fglL_edge g) /\
  g_isCutR g = Qltb 0 (g_gR_at_edge g - g_fglR_edge g) /\
  g_gradL g = (if g_isCutL g then (-1) / (if g_isCutL g then cutSlope else fillSlope)
               else 1 / (if g_isCutL g then cutSlope else fillSlope)) /\
  g_gradR g = (if g_isCutR g then 1 / (if g_isCutR g then cutSlope else fillSlope)
               else (-1) / (if g_isCutR g then cutSlope else fillSlope)).
Proof. repeat split; reflexivity. Qed.

Lemma geometry_scans :
  g_scanL g =
    findToe (fun pt => Qle_bool (px pt) ((- B) / 2 + 0.001))
      (mkPoint ((- B) / 2) (g_fglL_edge g))
      (mkPoint ((- B) / 2 - 1000) (g_fglL_edge g + g_gradL g * (-1000)))
      (extendedGround (g_groundPts g)) /\
  g_scanR g =
    findToe (fun pt => Qle_bool (B / 2 - 0.001) (px pt))
      (mkPoint (B / 2) (g_fglR_edge g))
      (mkPoint (B / 2 + 1000) (g_fglR_edge g + g_gradR g * 1000))
      (extendedGround (g_groundPts g)) /\
  g_toeL g = default (mkPoint ((- B) / 2) (g_gL_at_edge g)) (g_scanL g) /\
  g_toeR g = default (mkPoint (B / 2) (g_gR_at_edge g)) (g_scanR g).
Proof. repeat split; reflexivity. Qed.

Lemma geometry_sortedX :
  g_sortedX g =
    List.filter (fun x => Qle_bool (px (g_toeL g) - 0.001) x
                          && Qle_bool x (px (g_toeR g) + 0.001))
      (sortBy id (setOf [] ([ (- B) / 2; 0; B / 2; px (g_toeL g); px (g_toeR g) ]
                            ++ map px (g_groundPts g))%list)).
Proof. reflexivity. Qed.

Lemma geometry_areas :
  (g_areaCut g, g_areaFill g) =
    stripLoop (roadY B (st_fglC s) (g_camberDrop g) (g_fglL_edge g) (g_fglR_edge g)
                 (g_gradL g) (g_gradR g))
      (g_groundPts g) (g_sortedX g) (0, 0).
Proof.
  unfold g, geometry.
  cbn [g_areaCut g_areaFill g_groundPts g_sortedX g_camberDrop g_fglL_edge
       g_fglR_edge g_gradL g_gradR].
  match goal with |- (fst ?p, snd ?p) = _ => destruct p end. reflexivity.
Qed.
End Fields.

(** Ground whose points all lie at one level [c] is level everywhere. *)
Section Flat.
Variable c : Q.
Let flat (l : list Point) : Prop := Forall (fun p => py p = c) l.

Lemma interpolateLoop_flat (x : Q) (l : list Point) (y : Q) :
  flat l -> interpolateLoop x l = Some y -> y == c.
Proof.
  induction l as [|p1 [|p2 rest] IH]; cbn [interpolateLoop]; try discriminate.
  intros Hf. pose proof Hf as Hf0.
  apply Forall_cons in Hf0 as [H1 Hf'].
  pose proof Hf' as Hf1. apply Forall_cons in Hf1 as [H2 _].
  destruct (_ && _).
  - intros [= <-]. rewrite H1, H2. ring.
  - apply IH, Hf'.
Qed.

Lemma getInterpolatedEGL_flat (x : Q) (l : list Point) :
  flat l -> l <> [] -> getInterpolatedEGL x l == c.
Proof.
  intros Hf Hne.
  destruct l as [|p0 rest]; [contradiction|].
  unfold getInterpolatedEGL.
  destruct (last (p0 :: rest)) as [pn|] eqn:El.
  2:{ apply last_None in El. discriminate El. }
  assert (Hn : py pn = c).
  { apply last_Some in El as [front Efront].
    pose proof Hf as Hf'. unfold flat in Hf'. rewrite Efront, Forall_app in Hf'.
    destruct Hf' as [_ Hf']. apply Forall_cons in Hf' as [Hf' _]. exact Hf'. }
  assert (H0 : py p0 = c) by (apply Forall_cons in Hf as [Hf _]; exact Hf).
  destruct (Qle_bool x (px p0)); [rewrite H0; reflexivity|].
  destruct (Qle_bool (px pn) x); [rewrite Hn; reflexivity|].
  destruct (interpolateLoop x (p0 :: rest)) as [y|] eqn:Ei.
  - eapply interpolateLoop_flat; eassumption.
  - rewrite H0. reflexivity.
Qed.
End Flat.

Lemma sortBy_Forall {A} (key : A -> Q) (P : A -> Prop) (l : list A) :
  Forall P l -> Forall P (sortBy key l).
Proof.
  unfold sortBy.
  assert (G : forall acc, Forall P acc -> Forall P l ->
     Forall P (fold_left (fun acc a => insertSorted key a acc) l acc)).
  { induction l as [|a l IH]; intros acc Hacc Hl; cbn; [exact Hacc|].
    apply Forall_cons in Hl as [Ha Hl]. apply IH; [apply insertSorted_Forall|]; assumption. }
  intros H. apply G; [constructor | exact H].
Qed.

Lemma insertSorted_length {A} (key : A -> Q) (a : A) (l : list A) :
  length (insertSorted key a l) = S (length l).
Proof.
  induction l as [|b l IH]; cbn; [reflexivity|].
  destruct (Qltb _ _); cbn; [reflexivity | rewrite IH; reflexivity].
Qed.

Lemma sortBy_length {A} (key : A -> Q) (l : list A) :
  length (sortBy key l) = length l.
Proof.
  unfold sortBy.
  assert (G : forall acc, length (fold_left (fun acc a => insertSorted key a acc) l acc)
                          = (length acc + length l)%nat).
  { induction l as [|a l IH]; intros acc; cbn; [lia|].
    rewrite IH, insertSorted_length. lia. }
  rewrite G. reflexivity.
Qed.

(** A slope ray over level ground at [c]: the ray from [p1] to [p2] reaches
    that level at the abscissa [X]. *)
Section LevelGround.
Variables (p1 p2 : Point) (c X : Q).
Hypothesis Hdy : ~ (py p2 - py p1 == 0).
Hypothesis Hhit : (py p2 - py p1) * (X - px p1) == (c - py p1) * (px p2 - px p1).
Hypothesis Hreach : 0 <= (c - py p1) / (py p2 - py p1) <= 1.

Lemma getIntersection_level_x (p3 p4 pt : Point) :
  py p3 = c -> py p4 = c ->
  getIntersection p1 p2 p3 p4 = Some pt -> px pt == X.
Proof.
  intros H3 H4. unfold getIntersection. cbn zeta. rewrite H3, H4.
  destruct (Qeq_bool _ 0) eqn:Ed; [discriminate|].
  apply Qeq_bool_neq in Ed.
  destruct (_ && _); [|discriminate].
  intros [= <-]. cbn [px].
  assert (Hx : ~ (px p4 - px p3 == 0)).
  { intros E. apply Ed.
    rewrite E. ring. }
  apply (Qmult_inj_l _ _ (py p2 - py p1) Hdy).
  rewrite (Qmult_comm (py p2 - py p1) X).
  assert (HX : X * (py p2 - py p1) == (c - py p1) * (px p2 - px p1) + px p1 * (py p2 - py p1)).
  { rewrite <- Hhit. ring. }
  rewrite HX. field. exact Ed.
Qed.

Lemma getIntersection_level_hit (p3 p4 : Point) :
  py p3 = c -> py p4 = c ->
  px p3 < px p4 -> px p3 <= X -> X <= px p4 ->
  exists pt, getIntersection p1 p2 p3 p4 = Some pt.
Proof.
  intros H3 H4 Hlt HlX HXr. unfold getIntersection. cbn zeta. rewrite H3, H4.
  set (denom := (c - c) * (px p2 - px p1) - (px p4 - px p3) * (py p2 - py p1)).
  assert (Hden : ~ denom == 0).
  { unfold denom. intros E.
    assert (E' : (px p4 - px p3) * (py p2 - py p1) == 0).
    { transitivity (- ((c - c) * (px p2 - px p1) - (px p4 - px p3) * (py p2 - py p1)));
        [ring | rewrite E; reflexivity]. }
    apply Qmult_integral in E' as [E'|E']; [lra | contradiction]. }
  destruct (Qeq_bool denom 0) eqn:Ed; [apply Qeq_bool_iff in Ed; contradiction|].
  set (ua := ((px p4 - px p3) * (py p1 - c) - (c - c) * (px p1 - px p3)) / denom).
  set (ub := ((px p2 - px p1) * (py p1 - c) - (py p2 - py p1) * (px p1 - px p3)) / denom).
  assert (Eua : ua == (c - py p1) / (py p2 - py p1)).
  { unfold ua, denom. field. split; [exact Hdy | exact Hden]. }
  assert (Eub : ub == (X - px p3) / (px p4 - px p3)).
  { unfold ub, denom.
    assert (HX : X * (py p2 - py p1)
                 == (c - py p1) * (px p2 - px p1) + px p1 * (py p2 - py p1))
      by (rewrite <- Hhit; ring).
    apply (Qmult_inj_l _ _ (py p2 - py p1) Hdy).
    transitivity ((X * (py p2 - py p1) - px p3 * (py p2 - py p1)) / (px p4 - px p3)).
    - rewrite HX. field. split; [lra | exact Hden].
    - field. lra. }
  assert (H0a : Qle_bool 0 ua = true) by (apply Qle_bool_iff; rewrite Eua; tauto).
  assert (H1a : Qle_bool ua 1 = true) by (apply Qle_bool_iff; rewrite Eua; tauto).
  assert (H0b : Qle_bool 0 ub = true).
  { apply Qle_bool_iff. rewrite Eub. apply Qle_shift_div_l; lra. }
  assert (H1b : Qle_bool ub 1 = true).
  { apply Qle_bool_iff. rewrite Eub. apply Qle_shift_div_r; lra. }
  rewrite H0a, H1a, H0b, H1b. cbn. eauto.
Qed.

(** The scan crosses the abscissa [X] between two consecutive ground points
    and accepts the intersection it finds there, if not an earlier one. *)
Lemma findToe_level (accept : Point -> bool) :
  (forall pt, px pt == X -> accept pt = true) ->
  forall (rest : list Point) (a : Point),
    Forall (fun p => py p = c) (a :: rest) ->
    px a < X -> Exists (fun b => X <= px b) rest ->
    exists pt, findToe accept p1 p2 (a :: rest) = Some pt /\ px pt == X.
Proof.
  intros Hacc. induction rest as [|b rest IH]; intros a Hflat Ha Hex.
  - inversion Hex.
  - pose proof Hflat as Hf0. apply Forall_cons in Hf0 as [Hya Hf1].
    pose proof Hf1 as Hf2. apply Forall_cons in Hf2 as [Hyb _].
    cbn [findToe].
    destruct (getIntersection p1 p2 a b) as [pt|] eqn:E.
    + pose proof (getIntersection_level_x a b pt Hya Hyb E) as Hx.
      rewrite (Hacc pt Hx). eauto.
    + assert (Hb : px b < X).
      { apply Qnot_le_lt. intros Hle.
        destruct (getIntersection_level_hit a b Hya Hyb) as [pt Hpt]; try lra.
        congruence. }
      apply IH; [exact Hf1 | exact Hb |].
      apply Exists_cons in Hex as [Hex|Hex]; [lra | exact Hex].
Qed.
End LevelGround.

Lemma Qle_bool_false (a b : Q) : Qle_bool a b = false -> b < a.
Proof.
  intros H. apply Qnot_le_lt. intros Hle. apply Qle_bool_iff in Hle. congruence.
Qed.

(** Case analysis on every comparison in the goal. *)
Ltac qcases :=
  repeat match goal with
         | |- context [Qle_bool ?a ?b] =>
             let E := fresh "E" in
             destruct (Qle_bool a b) eqn:E;
             [apply Qle_bool_iff in E | apply Qle_bool_false in E]
         | |- context [Qltb ?a ?b] =>
             let E := fresh "E" in
             destruct (Qltb a b) eqn:E;
             [apply Qltb_lt in E | apply Qltb_ge in E]
         end.

(** Closes a branch of a piecewise definition: the pieces agree by [ring],
    the branch is impossible, or [x] sits on a breakpoint. *)
Ltac at_boundary x :=
  first [ ring
        | exfalso; lra
        | let E := fresh "Eb" in assert (E : x == -20) by lra; rewrite E; reflexivity
        | let E := fresh "Eb" in assert (E : x == -10) by lra; rewrite E; reflexivity
        | let E := fresh "Eb" in assert (E : x == 10) by lra; rewrite E; reflexivity
        | let E := fresh "Eb" in assert (E : x == 20) by lra; rewrite E; reflexivity ].

Lemma fillPotential_R0 x : x <= -20 -> fillPotential x == 0.
Proof. intros. unfold fillPotential. qcases; at_boundary x. Qed.

Lemma fillPotential_R1 x :
  -20 <= x -> x <= -10 ->
  fillPotential x == 10 * (x + 20) + (x * x - 400) * (1 # 4).
Proof. intros. unfold fillPotential. qcases; at_boundary x. Qed.

Lemma fillPotential_R2 x : -10 <= x -> x <= 10 -> fillPotential x == 25 + 5 * (x + 10).
Proof. intros. unfold fillPotential. qcases; at_boundary x. Qed.

Lemma fillPotential_R3 x :
  10 <= x -> x <= 20 ->
  fillPotential x == 125 + 10 * (x - 10) - (x * x - 100) * (1 # 4).
Proof. intros. unfold fillPotential. qcases; at_boundary x. Qed.

Lemma fillPotential_R4 x : 20 <= x -> fillPotential x == 150.
Proof. intros. unfold fillPotential. qcases; at_boundary x. Qed.

Lemma cutPotential_R0 x :
  x <= -20 -> cutPotential x == - ((x + 20) * (x + 20)) * (1 # 4).
Proof. intros. unfold cutPotential. qcases; at_boundary x. Qed.

Lemma cutPotential_R13 x : -20 <= x -> x <= 20 -> cutPotential x == 0.
Proof. intros. unfold cutPotential. qcases; at_boundary x. Qed.

Lemma cutPotential_R4 x : 20 <= x -> cutPotential x == (x - 20) * (x - 20) * (1 # 4).
Proof. intros. unfold cutPotential. qcases; at_boundary x. Qed.

Lemma lossOf_cons2 (pot : Q -> Q) (x1 x2 : Q) (rest : list Q) :
  lossOf pot (x1 :: x2 :: rest)
  = (if isSliver x1 x2 then pot x2 - pot x1 else 0) + lossOf pot (x2 :: rest).
Proof. reflexivity. Qed.

Section Strips.
Variables (road : Q -> Q) (gp : list Point).
Let hgt (x : Q) : Q := road x - getInterpolatedEGL x gp.
Hypothesis Hleft : forall x, x < -10 -> hgt x == 10 + x * (1 # 2).
Hypothesis Hmid : forall x, -10 <= x -> x <= 10 -> hgt x == 5.
Hypothesis Hright : forall x, 10 < x -> hgt x == 10 - x * (1 # 2).

Lemma stripStep_potential (x1 x2 : Q) (acc : Q * Q) :
  x1 < x2 -> sameRegion x1 x2 ->
  fst (stripStep road gp x1 x2 acc) == fst acc + (cutPotential x2 - cutPotential x1) /\
  snd (stripStep road gp x1 x2 acc) == snd acc + (fillPotential x2 - fillPotential x1).
Proof.
  intros Hlt Hreg. unfold stripStep. cbn zeta.
  fold (hgt ((x1 + x2) / 2)).
  assert (Em : (x1 + x2) / 2 == (x1 + x2) * (1 # 2)) by (unfold Qdiv; reflexivity).
  set (mid := (x1 + x2) / 2) in *.
  destruct Hreg as [H|[[Ha Hb]|[[Ha Hb]|[[Ha Hb]|H]]]].
  - assert (Eh : hgt mid == 10 + mid * (1 # 2)) by (apply Hleft; lra).
    destruct (Qltb 0 (hgt mid)) eqn:E; [apply Qltb_lt in E; lra|]. cbn [fst snd].
    unfold Math_abs. rewrite Qabs_neg by lra.
    rewrite Eh, Em, (cutPotential_R0 x1), (cutPotential_R0 x2), (fillPotential_R0 x1), (fillPotential_R0 x2) by lra.
    split; ring.
  - assert (Eh : hgt mid == 10 + mid * (1 # 2)) by (apply Hleft; lra).
    destruct (Qltb 0 (hgt mid)) eqn:E; [|apply Qltb_ge in E; lra]. cbn [fst snd].
    rewrite Eh, Em, (cutPotential_R13 x1), (cutPotential_R13 x2), (fillPotential_R1 x1), (fillPotential_R1 x2) by lra.
    split; ring.
  - assert (Eh : hgt mid == 5) by (apply Hmid; lra).
    destruct (Qltb 0 (hgt mid)) eqn:E; [|apply Qltb_ge in E; lra]. cbn [fst snd].
    rewrite Eh, (cutPotential_R13 x1), (cutPotential_R13 x2), (fillPotential_R2 x1), (fillPotential_R2 x2) by lra.
    split; ring.
  - assert (Eh : hgt mid == 10 - mid * (1 # 2)) by (apply Hright; lra).
    destruct (Qltb 0 (hgt mid)) eqn:E; [|apply Qltb_ge in E; lra]. cbn [fst snd].
    rewrite Eh, Em, (cutPotential_R13 x1), (cutPotential_R13 x2), (fillPotential_R3 x1), (fillPotential_R3 x2) by lra.
    split; ring.
  - assert (Eh : hgt mid == 10 - mid * (1 # 2)) by (apply Hright; lra).
    destruct (Qltb 0 (hgt mid)) eqn:E; [apply Qltb_lt in E; lra|]. cbn [fst snd].
    unfold Math_abs. rewrite Qabs_neg by lra.
    rewrite Eh, Em, (cutPotential_R4 x1), (cutPotential_R4 x2), (fillPotential_R4 x1), (fillPotential_R4 x2) by lra.
    split; ring.
Qed.

(** What a skipped strip would have contributed. *)
Lemma skipped_potential (x1 x2 : Q) :
  x1 <= x2 -> sameRegion x1 x2 ->
  0 <= cutPotential x2 - cutPotential x1 /\ 0 <= fillPotential x2 - fillPotential x1 /\ fillPotential x2 - fillPotential x1 <= 5 * (x2 - x1).
Proof.
  intros Hle Hreg.
  assert (Hsq : forall a b : Q, 0 <= a -> 0 <= b -> 0 <= a * b)
    by (intros; apply Qmult_le_0_compat; assumption).
  destruct Hreg as [H|[[Ha Hb]|[[Ha Hb]|[[Ha Hb]|H]]]].
  - rewrite (cutPotential_R0 x1), (cutPotential_R0 x2), (fillPotential_R0 x1), (fillPotential_R0 x2) by lra.
    pose proof (Hsq (x2 - x1) (- (x1 + x2 + 40)) ltac:(lra) ltac:(lra)).
    repeat split; lra.
  - rewrite (cutPotential_R13 x1), (cutPotential_R13 x2), (fillPotential_R1 x1), (fillPotential_R1 x2) by lra.
    pose proof (Hsq (x2 - x1) (x1 + x2 + 40) ltac:(lra) ltac:(lra)).
    pose proof (Hsq (x2 - x1) (- (x1 + x2 + 20)) ltac:(lra) ltac:(lra)).
    repeat split; lra.
  - rewrite (cutPotential_R13 x1), (cutPotential_R13 x2), (fillPotential_R2 x1), (fillPotential_R2 x2) by lra.
    repeat split; lra.
  - rewrite (cutPotential_R13 x1), (cutPotential_R13 x2), (fillPotential_R3 x1), (fillPotential_R3 x2) by lra.
    pose proof (Hsq (x2 - x1) (40 - (x1 + x2)) ltac:(lra) ltac:(lra)).
    pose proof (Hsq (x2 - x1) (x1 + x2 - 20) ltac:(lra) ltac:(lra)).
    repeat split; lra.
  - rewrite (cutPotential_R4 x1), (cutPotential_R4 x2), (fillPotential_R4 x1), (fillPotential_R4 x2) by lra.
    pose proof (Hsq (x2 - x1) (x1 + x2 - 40) ltac:(lra) ltac:(lra)).
    repeat split; lra.
Qed.
Lemma stripLoop_cons2 (x1 x2 : Q) (rest : list Q) (acc : Q * Q) :
  stripLoop road gp (x1 :: x2 :: rest) acc
  = if isSliver x1 x2 then stripLoop road gp (x2 :: rest) acc
    else stripLoop road gp (x2 :: rest) (stripStep road gp x1 x2 acc).
Proof. reflexivity. Qed.

Lemma stripLoop_potential (xs : list Q) :
  adjacent (fun a b => a <= b /\ sameRegion a b) xs ->
  forall acc,
    fst (stripLoop road gp xs acc)
    == fst acc + (cutPotential (lastOf xs) - cutPotential (firstOf xs)) - lossOf cutPotential xs /\
    snd (stripLoop road gp xs acc)
    == snd acc + (fillPotential (lastOf xs) - fillPotential (firstOf xs)) - lossOf fillPotential xs.
Proof.
  induction xs as [|x1 [|x2 rest] IH]; intros Hadj acc.
  - cbn. split; ring.
  - cbn. split; ring.
  - destruct Hadj as [[Hle Hreg] Hadj].
    rewrite stripLoop_cons2.
    change (lastOf (x1 :: x2 :: rest)) with (lastOf (x2 :: rest)).
    change (firstOf (x1 :: x2 :: rest)) with x1.
    change (firstOf (x2 :: rest)) with x2 in IH.
    rewrite !lossOf_cons2.
    destruct (isSliver x1 x2) eqn:Es.
    + destruct (IH Hadj acc) as [IHc IHf]. rewrite IHc, IHf. split; ring.
    + destruct (IH Hadj (stripStep road gp x1 x2 acc)) as [IHc IHf].
      assert (Hlt : x1 < x2).
      { unfold isSliver in Es. apply Qltb_ge in Es. unfold Math_abs in Es.
        rewrite Qabs_pos in Es by lra. lra. }
      destruct (stripStep_potential x1 x2 acc Hlt Hreg) as [Sc Sf].
      rewrite IHc, IHf, Sc, Sf. split; ring.
Qed.

Lemma lossOf_bounds (xs : list Q) :
  adjacent (fun a b => a <= b /\ sameRegion a b) xs ->
  0 <= lossOf cutPotential xs /\ 0 <= lossOf fillPotential xs /\
  lossOf fillPotential xs <= 0.005 * inject_Z (Z.of_nat (length xs - 1)).
Proof.
  induction xs as [|x1 [|x2 rest] IH]; intros Hadj.
  - repeat split; apply Qle_bool_iff; reflexivity.
  - repeat split; apply Qle_bool_iff; reflexivity.
  - destruct Hadj as [[Hle Hreg] Hadj].
    destruct (IH Hadj) as (IH1 & IH2 & IH3).
    destruct (skipped_potential x1 x2 Hle Hreg) as (S1 & S2 & S3).
    rewrite !lossOf_cons2.
    replace (length (x1 :: x2 :: rest) - 1)%nat with (S (length (x2 :: rest) - 1))
      by (cbn [length]; lia).
    rewrite Nat2Z.inj_succ. unfold Z.succ. rewrite inject_Z_plus.
    change (inject_Z 1) with 1.
    destruct (isSliver x1 x2) eqn:Es.
    + unfold isSliver in Es. apply Qltb_lt in Es. unfold Math_abs in Es.
      rewrite Qabs_pos in Es by lra. repeat split; lra.
    + repeat split; lra.
Qed.

Lemma lossOf_no_sliver (pot : Q -> Q) (xs : list Q) :
  adjacent (fun a b => 0.001 <= b - a) xs -> lossOf pot xs == 0.
Proof.
  induction xs as [|x1 [|x2 rest] IH]; intros Hadj; try reflexivity.
  destruct Hadj as [Hgap Hadj]. rewrite lossOf_cons2.
  assert (Es : isSliver x1 x2 = false).
  { unfold isSliver. apply Qltb_ge. unfold Math_abs. rewrite Qabs_pos; lra. }
  rewrite Es, (IH Hadj). ring.
Qed.
End Strips.

Lemma adjacent_and (P R : Q -> Q -> Prop) (xs : list Q) :
  adjacent P xs -> adjacent R xs -> adjacent (fun a b => P a b /\ R a b) xs.
Proof.
  induction xs as [|x1 [|x2 rest] IH]; cbn; tauto.
Qed.

Lemma adjacent_impl (P R : Q -> Q -> Prop) (xs : list Q) :
  (forall a b, P a b -> R a b) -> adjacent P xs -> adjacent R xs.
Proof.
  intros HPR. induction xs as [|x1 [|x2 rest] IH]; cbn; try tauto.
  intros [H1 H2]. split; [apply HPR, H1 | apply IH, H2].
Qed.

Lemma adjacent_sorted (xs : list Q) : StronglySorted Qle xs -> adjacent Qle xs.
Proof.
  induction 1 as [|x1 xs Hs IH Hall]; [exact I|].
  destruct xs as [|x2 rest]; [exact I|].
  split; [|exact IH]. apply Forall_cons in Hall as [H _]. exact H.
Qed.

(** In a sorted list no pair of neighbours has a list element strictly
    between them. *)
Lemma sorted_gap (b : Q) (xs : list Q) :
  StronglySorted Qle xs ->
  Forall (fun u => b <= u) xs \/ Exists (fun y => y == b) xs ->
  adjacent (fun u v => b <= u \/ v <= b) xs.
Proof.
  induction 1 as [|x1 xs Hs IH Hall]; intros Hb; [exact I|].
  destruct xs as [|x2 rest]; [exact I|].
  pose proof Hall as Hall'. apply Forall_cons in Hall' as [H12 _].
  destruct Hb as [Hb|Hb].
  - apply Forall_cons in Hb as [Hb1 Hb]. split; [left; exact Hb1|].
    apply IH. left. exact Hb.
  - apply Exists_cons in Hb as [Hb|Hb].
    + split; [left; lra|]. apply IH. left.
      eapply Forall_impl; [exact Hall|]. intros u Hu. cbn in Hu. lra.
    + split.
      * right. apply Exists_exists in Hb as (y & Hy & Ey).
        apply list_elem_of_In in Hy. destruct Hy as [<-|Hy]; [lra|].
        inversion Hs as [|? ? _ Hall2]; subst.
        rewrite List.Forall_forall in Hall2. specialize (Hall2 y Hy). lra.
      * apply IH. right. exact Hb.
Qed.

Lemma sameRegion_of_gaps (a b : Q) :
  a <= b ->
  (-20 <= a \/ b <= -20) -> (-10 <= a \/ b <= -10) ->
  (10 <= a \/ b <= 10) -> (20 <= a \/ b <= 20) ->
  sameRegion a b.
Proof.
  unfold sameRegion. intros Hle [H1|H1] [H2|H2] [H3|H3] [H4|H4];
    first [ left; lra
          | right; left; split; lra
          | right; right; left; split; lra
          | right; right; right; left; split; lra
          | right; right; right; right; lra ].
Qed.

(** Membership up to equality of values survives the set, the sort and the
    filter. *)
Lemma setOf_Exists (b : Q) (xs : list Q) :
  forall seen,
    Exists (fun y => y == b) seen \/ Exists (fun y => y == b) xs ->
    Exists (fun y => y == b) (setOf seen xs).
Proof.
  induction xs as [|x xs IH]; intros seen H; cbn [setOf].
  - destruct H as [H|H]; [exact H | inversion H].
  - destruct (existsb (Qeq_bool x) seen) eqn:E.
    + apply IH. destruct H as [H|H]; [left; exact H|].
      apply Exists_cons in H as [H|H]; [|right; exact H].
      left. apply List.existsb_exists in E as (y & Hy & Ey).
      apply Qeq_bool_iff in Ey. apply Exists_exists. exists y.
      split; [apply list_elem_of_In; exact Hy | rewrite <- Ey; exact H].
    + apply IH. destruct H as [H|H].
      * left. apply Exists_app. left. exact H.
      * apply Exists_cons in H as [H|H]; [|right; exact H].
        left. apply Exists_app. right. constructor. exact H.
Qed.

Lemma setOf_length (xs : list Q) :
  forall seen, (length (setOf seen xs) <= length seen + length xs)%nat.
Proof.
  induction xs as [|x xs IH]; intros seen; cbn [setOf length]; [lia|].
  destruct (existsb _ seen).
  - specialize (IH seen). lia.
  - specialize (IH (seen ++ [x])%list). rewrite length_app in IH. cbn in IH. lia.
Qed.

Lemma insertSorted_Exists {A} (key : A -> Q) (P : A -> Prop) (a : A) (l : list A) :
  P a \/ Exists P l -> Exists P (insertSorted key a l).
Proof.
  induction l as [|b l IH]; cbn; intros H.
  - destruct H as [H|H]; [constructor; exact H | inversion H].
  - destruct (Qltb (key a) (key b)).
    + destruct H as [H|H]; [apply Exists_cons_hd; exact H | apply Exists_cons_tl; exact H].
    + destruct H as [H|H].
      * apply Exists_cons_tl, IH. left. exact H.
      * apply Exists_cons in H as [H|H];
          [apply Exists_cons_hd; exact H | apply Exists_cons_tl, IH; right; exact H].
Qed.

Lemma sortBy_Exists {A} (key : A -> Q) (P : A -> Prop) (l : list A) :
  Exists P l -> Exists P (sortBy key l).
Proof.
  unfold sortBy.
  assert (G : forall acc, Exists P acc \/ Exists P l ->
     Exists P (fold_left (fun acc a => insertSorted key a acc) l acc)).
  { induction l as [|a l IH]; intros acc H; cbn.
    - destruct H as [H|H]; [exact H | inversion H].
    - apply IH. destruct H as [H|H].
      + left. apply insertSorted_Exists. right. exact H.
      + apply Exists_cons in H as [H|H]; [|right; exact H].
        left. apply insertSorted_Exists. left. exact H. }
  intros H. apply G. right. exact H.
Qed.

Lemma filter_Exists (f : Q -> bool) (P : Q -> Prop) (l : list Q) :
  (forall y, P y -> f y = true) -> Exists P l -> Exists P (List.filter f l).
Proof.
  intros Hf. induction 1 as [y l Hy|y l Hl IH]; cbn.
  - rewrite (Hf y Hy). apply Exists_cons_hd. exact Hy.
  - destruct (f y); [apply Exists_cons_tl|]; exact IH.
Qed.

Lemma filter_Forall (f : Q -> bool) (l : list Q) :
  Forall (fun y => f y = true) (List.filter f l).
Proof.
  apply List.Forall_forall. intros y Hy. apply List.filter_In in Hy. tauto.
Qed.

Lemma filter_length_le (f : Q -> bool) (l : list Q) :
  (length (List.filter f l) <= length l)%nat.
Proof.
  induction l as [|a l IH]; cbn; [lia|]. destruct (f a); cbn; lia.
Qed.

(** The first element of a sorted list is its least, the last its greatest. *)
Lemma sorted_first_le (b : Q) (xs : list Q) :
  StronglySorted Qle xs -> Exists (fun y => y == b) xs -> firstOf xs <= b.
Proof.
  intros Hs Hb. destruct xs as [|x xs]; [inversion Hb|]. cbn.
  apply Exists_cons in Hb as [Hb|Hb]; [lra|].
  inversion Hs as [|? ? _ Hall]; subst.
  apply Exists_exists in Hb as (y & Hy & Ey).
  rewrite List.Forall_forall in Hall. apply list_elem_of_In in Hy.
  specialize (Hall y Hy). lra.
Qed.

Lemma sorted_last_max (xs : list Q) :
  StronglySorted Qle xs -> Forall (fun y => y <= lastOf xs) xs.
Proof.
  induction 1 as [|x xs Hs IH Hall]; [constructor|].
  destruct xs as [|x2 rest].
  - constructor; [cbn; lra | constructor].
  - change (lastOf (x :: x2 :: rest)) with (lastOf (x2 :: rest)).
    constructor; [|exact IH].
    pose proof IH as IH'. apply Forall_cons in IH' as [H2 _].
    apply Forall_cons in Hall as [H12 _]. lra.
Qed.

Lemma sorted_last_ge (b : Q) (xs : list Q) :
  StronglySorted Qle xs -> Exists (fun y => y == b) xs -> b <= lastOf xs.
Proof.
  intros Hs Hb. apply Exists_exists in Hb as (y & Hy & Ey).
  pose proof (sorted_last_max xs Hs) as Hmax.
  rewrite Forall_forall in Hmax. specialize (Hmax y Hy). cbn in Hmax. lra.
Qed.

Lemma Forall_firstOf (P : Q -> Prop) (xs : list Q) :
  xs <> [] -> Forall P xs -> P (firstOf xs).
Proof.
  intros Hne H. destruct xs; [contradiction|]. apply Forall_cons in H as [H _]. exact H.
Qed.

Lemma Forall_lastOf (P : Q -> Prop) (xs : list Q) :
  xs <> [] -> Forall P xs -> P (lastOf xs).
Proof.
  intros Hne H. induction xs as [|x [|x2 rest] IH]; [contradiction| |].
  - apply Forall_cons in H as [H _]. exact H.
  - change (lastOf (x :: x2 :: rest)) with (lastOf (x2 :: rest)).
    apply Forall_cons in H as [_ H]. apply IH; [discriminate | exact H].
Qed.

(** Scenario A at an arbitrary median width and chainage. *)
Section ScenarioA.
Variables (medianWidth : Q) (chStr : string) (chM : Q).
Let s := mkStation chStr chM 100 95 95 95 95.
Let g := geometry 20 medianWidth 0 1 2 s.

Lemma scnA_ground_flat : Forall (fun p => py p = 95) (g_groundPts g).
Proof.
  unfold g. rewrite geometry_groundPts. apply sortBy_Forall.
  repeat constructor.
Qed.

Lemma scnA_ground_length : length (g_groundPts g) = 4%nat.
Proof. unfold g. rewrite geometry_groundPts, sortBy_length. reflexivity. Qed.

Lemma scnA_ground (x : Q) : getInterpolatedEGL x (g_groundPts g) == 95.
Proof.
  apply getInterpolatedEGL_flat; [apply scnA_ground_flat|].
  pose proof scnA_ground_length as H. intros E. rewrite E in H. discriminate.
Qed.

Lemma scnA_camberDrop : g_camberDrop g == 0.
Proof. reflexivity. Qed.

Lemma scnA_edges : g_fglL_edge g == 100 /\ g_fglR_edge g == 100.
Proof. split; reflexivity. Qed.

Lemma scnA_fill_sides : g_isCutL g = false /\ g_isCutR g = false.
Proof.
  destruct (geometry_edges 20 medianWidth 0 1 2 s)
    as (_ & _ & _ & EgL & EgR & EcL & EcR & _).
  fold g in EgL, EgR, EcL, EcR. destruct scnA_edges as [El Er].
  rewrite EcL, EcR, EgL, EgR. split; apply Qltb_ge.
  - rewrite scnA_ground, El. lra.
  - rewrite scnA_ground, Er. lra.
Qed.

Lemma scnA_grads : g_gradL g = 1 / 2 /\ g_gradR g = (-1) / 2.
Proof.
  destruct (geometry_edges 20 medianWidth 0 1 2 s)
    as (_ & _ & _ & _ & _ & _ & _ & EL & ER).
  fold g in EL, ER. destruct scnA_fill_sides as [HL HR].
  rewrite EL, ER, HL, HR. split; reflexivity.
Qed.

Lemma scnA_extended :
  exists a0 b0 c0 d0,
    extendedGround (g_groundPts g)
    = mkPoint (-1000) 95 :: ([a0; b0; c0; d0] ++ [mkPoint 1000 95])%list /\
    Forall (fun p => py p = 95) [a0; b0; c0; d0].
Proof.
  pose proof scnA_ground_flat as Hf. pose proof scnA_ground_length as Hl.
  destruct (g_groundPts g) as [|a0 [|b0 [|c0 [|d0 [|e0 rest]]]]]; try discriminate.
  exists a0, b0, c0, d0. split; [|exact Hf].
  unfold extendedGround. cbn [nth].
  pose proof Hf as Hf'. apply Forall_cons in Hf' as [Ha Hf'].
  apply Forall_cons in Hf' as [_ Hf']. apply Forall_cons in Hf' as [_ Hf'].
  apply Forall_cons in Hf' as [Hd _]. rewrite Ha, Hd. reflexivity.
Qed.

Lemma scnA_toeL : px (g_toeL g) == -20.
Proof.
  destruct (geometry_scans 20 medianWidth 0 1 2 s) as (EsL & _ & EtL & _).
  fold g in EsL, EtL. destruct scnA_grads as [HgL _].
  destruct scnA_edges as [El _].
  destruct scnA_extended as (a0 & b0 & c0 & d0 & Eext & Hflat).
  rewrite HgL, Eext in EsL.
  set (p1 := mkPoint ((- (20)) / 2) (g_fglL_edge g)) in EsL.
  set (p2 := mkPoint ((- (20)) / 2 - 1000) (g_fglL_edge g + 1 / 2 * (-1000))) in EsL.
  assert (Edy : py p2 - py p1 == -500) by (cbn [py p1 p2]; field).
  destruct (findToe_level p1 p2 95 (-20)) with
    (accept := fun pt => Qle_bool (px pt) ((- (20)) / 2 + 0.001))
    (rest := ([a0; b0; c0; d0] ++ [mkPoint 1000 95])%list) (a := mkPoint (-1000) 95)
    as (pt & Hpt & Ex).
  - rewrite Edy. discriminate.
  - rewrite Edy. cbn [px py p1 p2]. rewrite El. reflexivity.
  - cbn [py p1 p2].
    assert (Eu : (95 - g_fglL_edge g) / (g_fglL_edge g + 1 / 2 * -1000 - g_fglL_edge g)
                 == 1 # 100) by (rewrite El; reflexivity).
    rewrite Eu. split; discriminate.
  - intros pt Hpt. apply Qle_bool_iff. rewrite Hpt. discriminate.
  - constructor; [reflexivity|]. apply Forall_app. split; [exact Hflat|].
    constructor; [reflexivity | constructor].
  - reflexivity.
  - apply Exists_app. right. constructor. cbn. discriminate.
  - rewrite EtL, EsL, Hpt. exact Ex.
Qed.

Lemma scnA_toeR : px (g_toeR g) == 20.
Proof.
  destruct (geometry_scans 20 medianWidth 0 1 2 s) as (_ & EsR & _ & EtR).
  fold g in EsR, EtR. destruct scnA_grads as [_ HgR].
  destruct scnA_edges as [_ Er].
  destruct scnA_extended as (a0 & b0 & c0 & d0 & Eext & Hflat).
  rewrite HgR, Eext in EsR.
  set (p1 := mkPoint (20 / 2) (g_fglR_edge g)) in EsR.
  set (p2 := mkPoint (20 / 2 + 1000) (g_fglR_edge g + (-1) / 2 * 1000)) in EsR.
  assert (Edy : py p2 - py p1 == -500) by (cbn [py p1 p2]; field).
  destruct (findToe_level p1 p2 95 20) with
    (accept := fun pt => Qle_bool (20 / 2 - 0.001) (px pt))
    (rest := ([a0; b0; c0; d0] ++ [mkPoint 1000 95])%list) (a := mkPoint (-1000) 95)
    as (pt & Hpt & Ex).
  - rewrite Edy. discriminate.
  - rewrite Edy. cbn [px py p1 p2]. rewrite Er. reflexivity.
  - cbn [py p1 p2].
    assert (Eu : (95 - g_fglR_edge g) / (g_fglR_edge g + -1 / 2 * 1000 - g_fglR_edge g)
                 == 1 # 100) by (rewrite Er; reflexivity).
    rewrite Eu. split; discriminate.
  - intros pt Hpt. apply Qle_bool_iff. rewrite Hpt. discriminate.
  - constructor; [reflexivity|]. apply Forall_app. split; [exact Hflat|].
    constructor; [reflexivity | constructor].
  - reflexivity.
  - apply Exists_app. right. constructor. cbn. discriminate.
  - rewrite EtR, EsR, Hpt. exact Ex.
Qed.

Let road : Q -> Q :=
  roadY 20 (st_fglC s) (g_camberDrop g) (g_fglL_edge g) (g_fglR_edge g)
    (g_gradL g) (g_gradR g).

Lemma scnA_height_left (x : Q) :
  x < -10 -> road x - getInterpolatedEGL x (g_groundPts g) == 10 + x * (1 # 2).
Proof.
  intros Hx. destruct scnA_grads as [HgL HgR]. destruct scnA_edges as [El Er].
  unfold road, roadY. rewrite HgL, scnA_ground.
  destruct (Qltb x ((- (20)) / 2)) eqn:E.
  - rewrite El. field.
  - apply Qltb_ge in E. const_div. lra.
Qed.

Lemma scnA_height_right (x : Q) :
  10 < x -> road x - getInterpolatedEGL x (g_groundPts g) == 10 - x * (1 # 2).
Proof.
  intros Hx. destruct scnA_grads as [HgL HgR]. destruct scnA_edges as [El Er].
  unfold road, roadY. rewrite HgR, scnA_ground.
  destruct (Qltb x ((- (20)) / 2)) eqn:E.
  - apply Qltb_lt in E. const_div. lra.
  - destruct (Qltb (20 / 2) x) eqn:E2.
    + rewrite Er. field.
    + apply Qltb_ge in E2. const_div. lra.
Qed.

Lemma scnA_height_mid (x : Q) :
  -10 <= x -> x <= 10 -> road x - getInterpolatedEGL x (g_groundPts g) == 5.
Proof.
  intros H1 H2. unfold road, roadY. rewrite scnA_ground.
  destruct (Qltb x ((- (20)) / 2)) eqn:E.
  - apply Qltb_lt in E. const_div. lra.
  - destruct (Qltb (20 / 2) x) eqn:E2.
    + apply Qltb_lt in E2. const_div. lra.
    + rewrite scnA_camberDrop. cbn [st_fglC s]. ring.
Qed.

(** The critical offsets of the scenario. *)
Lemma scnA_sortedX :
  let xs := g_sortedX g in
  StronglySorted Qle xs /\
  Forall (fun x => -20.001 <= x /\ x <= 20.001) xs /\
  (forall b, b = -20 \/ b = -10 \/ b = 10 \/ b = 20 -> Exists (fun y => y == b) xs) /\
  (length xs <= 9)%nat.
Proof.
  cbn zeta. unfold g. rewrite geometry_sortedX. fold g.
  pose proof scnA_toeL as HtL. pose proof scnA_toeR as HtR.
  set (inRange := fun x => Qle_bool (px (g_toeL g) - 0.001) x
                           && Qle_bool x (px (g_toeR g) + 0.001)).
  set (crit := ([(- (20)) / 2; 0; 20 / 2; px (g_toeL g); px (g_toeR g)]
                ++ map px (g_groundPts g))%list).
  repeat split.
  - apply filter_sorted. apply (sortBy_sorted (A:=Q) id).
  - eapply Forall_impl; [apply filter_Forall|].
    intros x Hx. cbn beta in Hx. unfold inRange in Hx.
    apply andb_true_iff in Hx as [Hx1 Hx2].
    apply Qle_bool_iff in Hx1, Hx2. split; lra.
  - intros b Hb. apply filter_Exists.
    + intros y Hy. unfold inRange. apply andb_true_iff.
      split; apply Qle_bool_iff; rewrite Hy;
        destruct Hb as [-> | [-> | [-> | ->]]]; lra.
    + apply (sortBy_Exists (A:=Q) id). apply setOf_Exists. right. unfold crit.
      apply Exists_app. left.
      destruct Hb as [-> | [-> | [-> | ->]]].
      * do 3 apply Exists_cons_tl. apply Exists_cons_hd. exact HtL.
      * apply Exists_cons_hd. reflexivity.
      * do 2 apply Exists_cons_tl. apply Exists_cons_hd. reflexivity.
      * do 4 apply Exists_cons_tl. apply Exists_cons_hd. exact HtR.
  - etransitivity; [apply filter_length_le|].
    rewrite (sortBy_length (A:=Q) id).
    etransitivity; [apply setOf_length|].
    unfold crit. rewrite length_app, length_map, scnA_ground_length. cbn. lia.
Qed.

Lemma scnA_regions :
  adjacent (fun a b => a <= b /\ sameRegion a b) (g_sortedX g).
Proof.
  destruct scnA_sortedX as (Hs & _ & Hex & _).
  pose proof (sorted_gap (-20) _ Hs (or_intror (Hex (-20) ltac:(tauto)))) as G1.
  pose proof (sorted_gap (-10) _ Hs (or_intror (Hex (-10) ltac:(tauto)))) as G2.
  pose proof (sorted_gap 10 _ Hs (or_intror (Hex 10 ltac:(tauto)))) as G3.
  pose proof (sorted_gap 20 _ Hs (or_intror (Hex 20 ltac:(tauto)))) as G4.
  pose proof (adjacent_sorted _ Hs) as G0.
  pose proof (adjacent_and _ _ _ G0 (adjacent_and _ _ _ G1
                (adjacent_and _ _ _ G2 (adjacent_and _ _ _ G3 G4)))) as G.
  eapply adjacent_impl; [|exact G].
  intros a b (H0 & H1 & H2 & H3 & H4). split; [exact H0|].
  apply sameRegion_of_gaps; assumption.
Qed.

(** The raw areas: the fill is 150 less what the skipped slivers hold, and
    the cut is what lies within a millimetre beyond the toes. *)
Lemma scnA_areas :
  g_areaFill g == 150 - lossOf fillPotential (g_sortedX g) /\
  0 <= lossOf fillPotential (g_sortedX g) <= 0.04 /\
  0 <= g_areaCut g <= 0.000001.
Proof.
  pose proof (geometry_areas 20 medianWidth 0 1 2 s) as Ea. fold g in Ea.
  fold road in Ea.
  destruct scnA_sortedX as (Hs & Hrange & Hex & Hlen).
  pose proof scnA_regions as Hreg.
  destruct (stripLoop_potential road (g_groundPts g)
              scnA_height_left scnA_height_mid scnA_height_right
              (g_sortedX g) Hreg (0, 0)) as [Pc Pf].
  rewrite <- Ea in Pc, Pf. cbn [fst snd] in Pc, Pf.
  destruct (lossOf_bounds (g_sortedX g) Hreg) as (L1 & L2 & L3).
  assert (Hne : g_sortedX g <> []).
  { intros E. specialize (Hex 10 ltac:(tauto)). rewrite E in Hex. inversion Hex. }
  pose proof (sorted_first_le (-20) _ Hs (Hex (-20) ltac:(tauto))) as F1.
  pose proof (sorted_last_ge 20 _ Hs (Hex 20 ltac:(tauto))) as F2.
  pose proof (Forall_firstOf _ _ Hne Hrange) as [F3 _].
  pose proof (Forall_lastOf _ _ Hne Hrange) as [_ F4].
  cbn beta in F3, F4.
  rewrite (fillPotential_R0 _ F1), (fillPotential_R4 _ F2) in Pf.
  rewrite (cutPotential_R0 _ F1), (cutPotential_R4 _ F2) in Pc.
  set (u := firstOf (g_sortedX g)) in *. set (v := lastOf (g_sortedX g)) in *.
  assert (Hn : inject_Z (Z.of_nat (length (g_sortedX g) - 1)) <= 8).
  { change 8 with (inject_Z 8). rewrite <- Zle_Qle. lia. }
  assert (Hsq : forall a b : Q, 0 <= a -> 0 <= b -> 0 <= a * b)
    by (intros; apply Qmult_le_0_compat; assumption).
  pose proof (Hsq (v - 20) (v - 20) ltac:(lra) ltac:(lra)).
  pose proof (Hsq (0.001 - (v - 20)) (v - 20) ltac:(lra) ltac:(lra)).
  pose proof (Hsq (- (u + 20)) (- (u + 20)) ltac:(lra) ltac:(lra)).
  pose proof (Hsq (0.001 + (u + 20)) (- (u + 20)) ltac:(lra) ltac:(lra)).
  destruct (geometry_areas_nonneg 20 medianWidth 0 1 2 s) as [Hc0 _].
  fold g in Hc0.
  repeat split; lra.
Qed.
End ScenarioA.

(** C1. Scenario A: formation width 20, no camber, crown at 100, the four
    ground levels at 95, slopes 1 (cut) and 2 (fill).  Whatever the median
    width and the chainage, both sides are fill sides, the toes are at the
    offsets -20 and 20, so that the bottom width is 40 and the toe distances
    are 10, the stored cut area is 0, the type is [Fill], and the stored
    fill area is 150 up to what the skipped strips (narrower than 1 mm) hold,
    which is at most 0.04; it is exactly 150 when no two neighbouring
    critical offsets are closer than 1 mm. *)
Theorem scenario_A_pure_fill (medianWidth : Q) (chStr : string) (chM : Q) :
  let s := mkStation chStr chM 100 95 95 95 95 in
  let g := geometry 20 medianWidth 0 1 2 s in
  let r := computeRow 20 medianWidth 0 1 2 s in
  g_isCutL g = false /\ g_isCutR g = false /\
  px (g_toeL g) == -20 /\ px (g_toeR g) == 20 /\
  EarthworkRow.bottomWidth r == 40 /\
  EarthworkRow.distL r == 10 /\ EarthworkRow.distR r == 10 /\
  EarthworkRow.areaCut r == 0 /\ EarthworkRow.type r = Fill /\
  149.96 <= EarthworkRow.areaFill r <= 150 /\
  (adjacent (fun a b => 0.001 <= b - a) (g_sortedX g) ->
   EarthworkRow.areaFill r == 150).
Proof.
  intros s g r.
  destruct (scnA_fill_sides medianWidth chStr chM) as [HcL HcR].
  pose proof (scnA_toeL medianWidth chStr chM) as HtL.
  pose proof (scnA_toeR medianWidth chStr chM) as HtR.
  destruct (scnA_areas medianWidth chStr chM) as (Hf & [Hl0 Hl1] & [Hc0 Hc1]).
  fold s g in HcL, HcR, HtL, HtR, Hf, Hl0, Hl1, Hc0, Hc1.
  assert (Eb : EarthworkRow.bottomWidth r = round3 (px (g_toeR g) - px (g_toeL g)))
    by reflexivity.
  assert (EdL : EarthworkRow.distL r = round3 (Math_abs (px (g_toeL g) - (- (20)) / 2)))
    by reflexivity.
  assert (EdR : EarthworkRow.distR r = round3 (Math_abs (px (g_toeR g) - 20 / 2)))
    by reflexivity.
  assert (Ec : EarthworkRow.areaCut r = round3 (g_areaCut g)) by reflexivity.
  assert (Ef : EarthworkRow.areaFill r = round3 (g_areaFill g)) by reflexivity.
  assert (Et : EarthworkRow.type r = classify (g_areaCut g) (g_areaFill g))
    by reflexivity.
  repeat split; try assumption.
  - rewrite Eb, (round3_wd _ 40); [reflexivity | rewrite HtL, HtR; reflexivity].
  - rewrite EdL, (round3_wd _ 10); [reflexivity|].
    unfold Math_abs. rewrite HtL. reflexivity.
  - rewrite EdR, (round3_wd _ 10); [reflexivity|].
    unfold Math_abs. rewrite HtR. reflexivity.
  - rewrite Ec. apply round3_small; lra.
  - rewrite Et. apply classify_Fill. split; lra.
  - rewrite Ef. apply Qle_trans with (round3 149.96);
      [apply Qle_bool_iff; reflexivity | apply round3_le; lra].
  - rewrite Ef. apply Qle_trans with (round3 150);
      [apply round3_le; lra | apply Qle_bool_iff; reflexivity].
  - intros Hgap. rewrite Ef, (round3_wd _ 150); [reflexivity|].
    rewrite Hf, (lossOf_no_sliver _ _ Hgap). ring.
Qed.

(** At the usual median widths no strip is skipped and the fill area is
    150 exactly. *)
Example scenario_A_usual_widths :
  Forall (fun medianWidth =>
    let r := computeRow 20 medianWidth 0 1 2 scenarioA in
    EarthworkRow.areaFill r == 150 /\ EarthworkRow.areaCut r == 0 /\
    EarthworkRow.type r = Fill)
  [0; 1; 2; 3; 4; 5; 6; 8; 10; 12; 20; 30; 40; 50].
Proof. repeat constructor; vm_compute; reflexivity. Qed.

(** A median 1 mm wide puts two skipped slivers next to the centre line:
    the stored fill area is 149.995. *)
Example scenario_A_sliver :
  EarthworkRow.areaFill (computeRow 20 0.001 0 1 2 scenarioA) == 149.995.
Proof. vm_compute. reflexivity. Qed.

Lemma scenario_A_pure_fill_witness :
  adjacent (fun a b => 0.001 <= b - a)
    (g_sortedX (geometry 20 4 0 1 2 (mkStation "0+000" 0 100 95 95 95 95))) /\
  EarthworkRow.areaFill (computeRow 20 4 0 1 2 (mkStation "0+000" 0 100 95 95 95 95))
  == 150.
Proof.
  assert (H : adjacent (fun a b => 0.001 <= b - a)
    (g_sortedX (geometry 20 4 0 1 2 (mkStation "0+000" 0 100 95 95 95 95)))).
  { vm_compute. repeat split; discriminate. }
  split; [exact H|].
  apply (scenario_A_pure_fill 4 "0+000" 0). exact H.
Defined.

(** * Further properties: geometry helpers, parsing, totals and drawings *)

(** ** Segment intersection *)

(** X1. A point returned by [getIntersection] lies on both segments: it is
    [p1 + ua (p2 - p1)] and [p3 + ub (p4 - p3)] for parameters [ua] and [ub]
    between 0 and 1. *)
Theorem getIntersection_sound (p1 p2 p3 p4 pt : Point) :
  getIntersection p1 p2 p3 p4 = Some pt ->
  exists ua ub : Q,
    (0 <= ua <= 1 /\ 0 <= ub <= 1 /\
     px pt == px p1 + ua * (px p2 - px p1) /\
     py pt == py p1 + ua * (py p2 - py p1) /\
     px pt == px p3 + ub * (px p4 - px p3) /\
     py pt == py p3 + ub * (py p4 - py p3))%Q.
Proof.
  unfold getIntersection. cbn zeta. intros H. revert H.
  destruct (Qeq_bool _ 0) eqn:Ed; [discriminate|].
  apply Qeq_bool_neq in Ed.
  match goal with
  | |- context [Qle_bool 0 ?ua && Qle_bool ?ua 1 && Qle_bool 0 ?ub && Qle_bool ?ub 1] =>
      destruct (Qle_bool 0 ua) eqn:E0; [|discriminate];
      destruct (Qle_bool ua 1) eqn:E1; [|discriminate];
      destruct (Qle_bool 0 ub) eqn:E2; [|discriminate];
      destruct (Qle_bool ub 1) eqn:E3; [|discriminate];
      intros H; exists ua, ub
  end.
  cbn [andb] in H. injection H as <-. cbn [px py].
  apply Qle_bool_iff in E0, E1, E2, E3.
  repeat split; try assumption; try reflexivity.
  - field. exact Ed.
  - field. exact Ed.
Qed.

Lemma getIntersection_sound_witness :
  exists (pt : Point) (ua ub : Q),
    getIntersection (mkPoint 0 0) (mkPoint 4 4) (mkPoint 0 2) (mkPoint 4 2) = Some pt /\
    (0 <= ua <= 1 /\ 0 <= ub <= 1 /\ px pt == 0 + ua * (4 - 0) /\ px pt == 0 + ub * (4 - 0))%Q.
Proof.
  destruct (getIntersection (mkPoint 0 0) (mkPoint 4 4) (mkPoint 0 2) (mkPoint 4 2))
    as [pt|] eqn:E; [|discriminate E].
  destruct (getIntersection_sound _ _ _ _ pt E) as (ua & ub & Ha & Hb & H1 & _ & H3 & _).
  exists pt, ua, ub. cbn [px py] in H1, H3. repeat split; tauto.
Defined.



(** ** Ground interpolation *)

Lemma sorted_suffix {A : Type} (R : A -> A -> Prop) (l1 l2 : list A) :
  StronglySorted R (l1 ++ l2)%list -> StronglySorted R l2.
Proof.
  induction l1 as [|a l1 IH]; cbn [app]; [tauto|].
  intros H. apply StronglySorted_inv in H as [H _]. exact (IH H).
Qed.

Lemma interpolateLoop_between (x : Q) (p1 p2 : Point) (post : list Point) :
  forall pre,
    StronglySorted (fun a b => (px a < px b)%Q) (pre ++ p1 :: p2 :: post)%list ->
    (px p1 <= x <= px p2)%Q ->
    exists y,
      interpolateLoop x (pre ++ p1 :: p2 :: post)%list = Some y /\
      (y == py p1 + (x - px p1) / (px p2 - px p1) * (py p2 - py p1))%Q.
Proof.
  intros pre. induction pre as [|a pre IH]; intros Hs [H1 H2].
  - cbn [app interpolateLoop].
    apply Qle_bool_iff in H1, H2. rewrite H1, H2. cbn [andb].
    eexists. split; reflexivity.
  - cbn [app] in Hs. apply StronglySorted_inv in Hs as [Hs Ha].
    specialize (IH Hs (conj H1 H2)).
    destruct pre as [|b pre].
    + cbn [app] in *. cbn [interpolateLoop].
      destruct (Qle_bool (px a) x && Qle_bool x (px p1)) eqn:E; [|exact IH].
      apply andb_true_iff in E as [_ E]. apply Qle_bool_iff in E.
      assert (Hx : (x == px p1)%Q) by lra.
      apply Forall_cons in Ha as [Ha1 Ha]. apply Forall_cons in Ha as [Ha2 _].
      apply StronglySorted_inv in Hs as [_ Hp]. apply Forall_cons in Hp as [Hp _].
      eexists. split; [reflexivity|]. rewrite Hx. field. split; lra.
    + cbn [app] in *. cbn [interpolateLoop].
      destruct (Qle_bool (px a) x && Qle_bool x (px b)) eqn:E; [|exact IH].
      exfalso. apply andb_true_iff in E as [_ E]. apply Qle_bool_iff in E.
      apply StronglySorted_inv in Hs as [_ Hb].
      apply Forall_app in Hb as [_ Hb]. apply Forall_cons in Hb as [Hb _]. lra.
Qed.

(** X3. On a ground profile with strictly increasing offsets,
    [getInterpolatedEGL] at an offset between two neighbouring points is the
    straight line through them. *)
Theorem getInterpolatedEGL_piecewise_linear (x : Q) (pre post : list Point)
    (p1 p2 : Point) :
  StronglySorted (fun a b => (px a < px b)%Q) (pre ++ p1 :: p2 :: post)%list ->
  (px p1 <= x <= px p2)%Q ->
  (getInterpolatedEGL x (pre ++ p1 :: p2 :: post)%list
   == py p1 + (x - px p1) / (px p2 - px p1) * (py p2 - py p1))%Q.
Proof.
  intros Hs Hx.
  destruct (interpolateLoop_between x p1 p2 post pre Hs Hx) as (y & Ey & Hy).
  assert (H12 : (px p1 < px p2)%Q).
  { apply sorted_suffix in Hs.
    apply StronglySorted_inv in Hs as [_ H]. apply Forall_cons in H as [H _]. exact H. }
  unfold getInterpolatedEGL.
  destruct (last (pre ++ p1 :: p2 :: post)%list) as [pn|] eqn:El.
  2:{ apply last_None in El. destruct pre; discriminate El. }
  assert (Hn : pn = p2 \/ (px p2 < px pn)%Q).
  { rewrite last_app_cons in El.
    change (last (p1 :: p2 :: post)) with (last (p2 :: post)) in El.
    apply last_Some_elem_of in El.
    apply sorted_suffix in Hs.
    apply StronglySorted_inv in Hs as [Hs _].
    apply StronglySorted_inv in Hs as [_ H].
    apply elem_of_cons in El as [-> | El]; [left; reflexivity | right].
    rewrite Forall_forall in H. apply H, El. }
  destruct pre as [|a pre]; cbn [app] in *; rewrite ?El.
  - destruct (Qle_bool x (px p1)) eqn:E1.
    { apply Qle_bool_iff in E1. assert (E : (x == px p1)%Q) by lra.
      cbv iota. rewrite E. field. lra. }
    destruct (Qle_bool (px pn) x) eqn:E2.
    { apply Qle_bool_iff in E2. destruct Hn as [-> | Hn]; [|lra].
      assert (E : (x == px p2)%Q) by lra. cbv iota. rewrite E. field. lra. }
    cbv iota. rewrite Ey. exact Hy.
  - assert (Ha : (px a < px p1)%Q).
    { apply StronglySorted_inv in Hs as [_ H]. apply Forall_app in H as [_ H].
      apply Forall_cons in H as [H _]. exact H. }
    destruct (Qle_bool x (px a)) eqn:E1.
    { apply Qle_bool_iff in E1. lra. }
    destruct (Qle_bool (px pn) x) eqn:E2.
    { apply Qle_bool_iff in E2. destruct Hn as [-> | Hn]; [|lra].
      assert (E : (x == px p2)%Q) by lra. cbv iota. rewrite E. field. lra. }
    cbv iota. rewrite Ey. exact Hy.
Qed.

Lemma getInterpolatedEGL_piecewise_linear_witness :
  (getInterpolatedEGL 1
     [mkPoint (-15) 99.5; mkPoint (-2) 99.8; mkPoint 2 100.2; mkPoint 15 99.4]
   == 99.8 + (1 - -2) / (2 - -2) * (100.2 - 99.8))%Q.
Proof.
  apply (getInterpolatedEGL_piecewise_linear 1 [mkPoint (-15) 99.5]
           [mkPoint 15 99.4] (mkPoint (-2) 99.8) (mkPoint 2 100.2)).
  - repeat constructor.
  - cbn [px]. split; lra.
Defined.

Lemma Qdiv_unit_interval (n d : Q) : (0 <= n <= d)%Q -> (0 <= n / d <= 1)%Q.
Proof.
  intros [H0 H1].
  destruct (Qlt_le_dec 0 d) as [Hd | Hd].
  - split; [apply Qle_shift_div_l | apply Qle_shift_div_r]; lra.
  - assert (E : (d == 0)%Q) by lra.
    assert (E' : (n / d == 0)%Q).
    { unfold Qdiv. rewrite E. change (/ 0)%Q with 0%Q. ring. }
    rewrite E'. split; lra.
Qed.

Lemma interpolateLoop_bounds (x lo hi : Q) (gp : list Point) (y : Q) :
  Forall (fun p => (lo <= py p <= hi)%Q) gp ->
  interpolateLoop x gp = Some y -> (lo <= y <= hi)%Q.
Proof.
  induction gp as [|p1 [|p2 rest] IH]; cbn [interpolateLoop]; try discriminate.
  intros Hall. pose proof Hall as Hall'.
  apply Forall_cons in Hall' as [[L1 U1] Hrest].
  pose proof Hrest as Hrest'. apply Forall_cons in Hrest' as [[L2 U2] _].
  destruct (Qle_bool (px p1) x && Qle_bool x (px p2)) eqn:E; [|exact (IH Hrest)].
  apply andb_true_iff in E as [E1 E2]. apply Qle_bool_iff in E1, E2.
  intros [= <-].
  destruct (Qdiv_unit_interval (x - px p1) (px p2 - px p1)) as [T0 T1]; [lra|].
  set (t := ((x - px p1) / (px p2 - px p1))%Q) in *.
  assert (A1 : (0 <= (1 - t) * (py p1 - lo))%Q) by (apply Qmult_le_0_compat; lra).
  assert (A2 : (0 <= t * (py p2 - lo))%Q) by (apply Qmult_le_0_compat; lra).
  assert (A3 : (0 <= (1 - t) * (hi - py p1))%Q) by (apply Qmult_le_0_compat; lra).
  assert (A4 : (0 <= t * (hi - py p2))%Q) by (apply Qmult_le_0_compat; lra).
  split; lra.
Qed.

(** X4. On a non-empty ground profile sorted by offset, the interpolated
    level stays between the lowest and the highest level of the profile,
    at every offset: beyond the end points the ground is level. *)
Theorem getInterpolatedEGL_bounds (x lo hi : Q) (gp : list Point) :
  gp <> [] ->
  StronglySorted (fun a b => (px a <= px b)%Q) gp ->
  Forall (fun p => (lo <= py p <= hi)%Q) gp ->
  (lo <= getInterpolatedEGL x gp <= hi)%Q.
Proof.
  intros Hne _ Hall. unfold getInterpolatedEGL.
  destruct gp as [|p0 rest]; [contradiction|].
  destruct (last (p0 :: rest)) as [pn|] eqn:El.
  2:{ apply last_None in El. discriminate El. }
  assert (H0 : (lo <= py p0 <= hi)%Q) by (apply Forall_cons in Hall as [H _]; exact H).
  assert (Hn : (lo <= py pn <= hi)%Q).
  { apply last_Some_elem_of in El. rewrite Forall_forall in Hall. apply Hall, El. }
  destruct (Qle_bool x (px p0)); [exact H0|].
  destruct (Qle_bool (px pn) x); [exact Hn|].
  destruct (interpolateLoop x (p0 :: rest)) as [y|] eqn:Ey; [|exact H0].
  eapply interpolateLoop_bounds; eassumption.
Qed.

Lemma getInterpolatedEGL_bounds_witness :
  (99.4 <= getInterpolatedEGL 1
     [mkPoint (-15) 99.5; mkPoint (-2) 99.8; mkPoint 2 100.2; mkPoint 15 99.4]
   <= 100.2)%Q.
Proof.
  apply getInterpolatedEGL_bounds.
  - discriminate.
  - repeat constructor; cbn [px]; lra.
  - repeat constructor; cbn [py]; lra.
Defined.

(** ** Stations of a run *)






(** ** Cells and header names *)

Lemma splitFields_no_separator (s : string) :
  forall cur inSep,
    allChars notFieldSep cur = true ->
    Forall (fun cell => allChars notFieldSep cell = true) (splitFields cur inSep s).
Proof.
  induction s as [|c s IH]; intros cur inSep Hcur; cbn [splitFields].
  - constructor; [exact Hcur | constructor].
  - destruct (isFieldSep c) eqn:Ec.
    + destruct inSep; [apply IH; reflexivity|].
      constructor; [exact Hcur | apply IH; reflexivity].
    + apply IH. rewrite allChars_app, Hcur. cbn. unfold notFieldSep at 1.
      rewrite Ec. reflexivity.
Qed.

Lemma trimEnd_idempotent (s : string) : trimEnd (trimEnd s) = trimEnd s.
Proof.
  induction s as [|c s IH]; [reflexivity|].
  cbn [trimEnd]. destruct (trimEnd s) as [|d t] eqn:E.
  - destruct (isWhiteSpace c) eqn:Ec; [reflexivity|]. cbn. rewrite Ec. reflexivity.
  - cbn [trimEnd]. cbn [trimEnd] in IH.
    destruct (match trimEnd t with
              | "" => if isWhiteSpace d then "" else String d ""
              | String a s0 => String d (String a s0)
              end); [discriminate IH|].
    rewrite IH. reflexivity.
Qed.

Lemma trimStart_head (s : string) :
  match trimStart s with
  | String c _ => isWhiteSpace c = false
  | EmptyString => True
  end.
Proof.
  induction s as [|c s IH]; cbn; [exact I|].
  destruct (isWhiteSpace c) eqn:Ec; [exact IH | exact Ec].
Qed.

Lemma trimStart_trimEnd (u : string) :
  match u with String c _ => isWhiteSpace c = false | EmptyString => True end ->
  trimStart (trimEnd u) = trimEnd u.
Proof.
  destruct u as [|c u]; [reflexivity|]. intros Hc.
  cbn [trimEnd]. destruct (trimEnd u).
  - rewrite Hc. cbn. rewrite Hc. reflexivity.
  - cbn. rewrite Hc. reflexivity.
Qed.

Lemma trim_idempotent (s : string) : trim (trim s) = trim s.
Proof.
  unfold trim. rewrite (trimStart_trimEnd _ (trimStart_head s)).
  apply trimEnd_idempotent.
Qed.

(** X6. The cells of a data line hold no comma and no tab, and trimming
    them again changes nothing. *)
Theorem cells_are_clean (line : string) :
  Forall (fun cell => allChars notFieldSep cell = true /\ trim cell = cell)
    (map trim (splitOnSeparators line)).
Proof.
  apply Forall_fmap. eapply Forall_impl.
  - apply (splitFields_no_separator line "" false). reflexivity.
  - intros cell H. cbn. split; [|apply trim_idempotent].
    unfold trim. apply allChars_trimEnd, allChars_trimStart, H.
Qed.

(** X7. A run of separators cuts a line once: doubling a comma or a tab
    adds no empty cell. *)
Theorem repeated_separators_collapse (a b : string) (s1 s2 : ascii) :
  isFieldSep s1 = true -> isFieldSep s2 = true ->
  splitOnSeparators (a ++ String s1 (String s2 b))
  = splitOnSeparators (a ++ String s1 b).
Proof.
  intros H1 H2. unfold splitOnSeparators.
  enough (G : forall inSep cur,
             splitFields cur inSep (a ++ String s1 (String s2 b))
             = splitFields cur inSep (a ++ String s1 b)) by apply G.
  induction a as [|c a IH]; intros inSep cur.
  - rewrite !append_nil. cbn [splitFields]. rewrite H1, H2.
    destruct inSep; reflexivity.
  - rewrite !append_cons. cbn [splitFields].
    destruct (isFieldSep c); [destruct inSep|]; rewrite ?IH; reflexivity.
Qed.

Lemma repeated_separators_collapse_witness :
  splitOnSeparators ("0+020,100" ++ String "," (String "," "95"))
  = splitOnSeparators ("0+020,100" ++ String "," "95").
Proof.
  apply repeated_separators_collapse; reflexivity.
Defined.

(** ** Column inference *)

Lemma mapColumns_lookup_Some (k : string) (headers : list string) :
  forall (i0 : nat) (colMap : gmap string nat) (i : nat),
    mapColumns i0 headers colMap !! k = Some i <->
    (colMap !! k = Some i /\ Forall (fun h => headerSlot h <> Some k) headers) \/
    (exists j h, i = (i0 + j)%nat /\ headers !! j = Some h /\
                 headerSlot h = Some k /\
                 Forall (fun h' => headerSlot h' <> Some k) (drop (S j) headers)).
Proof.
  induction headers as [|h rest IH]; intros i0 colMap i; cbn [mapColumns].
  - split.
    + intros H. left. split; [exact H | constructor].
    + intros [[H _] | (j & h & _ & Hj & _)]; [exact H | discriminate Hj].
  - rewrite IH. clear IH. split.
    + intros [[Hm Hall] | (j & h' & -> & Hj & Hh' & Hall)].
      * destruct (headerSlot h) as [slot|] eqn:Hslot.
        -- destruct (decide (slot = k)) as [-> | Hne].
           ++ rewrite lookup_insert_eq in Hm. injection Hm as <-.
              right. exists 0%nat, h. rewrite Nat.add_0_r.
              repeat split; [exact Hslot | exact Hall].
           ++ rewrite lookup_insert_ne in Hm by exact Hne.
              left. split; [exact Hm|]. constructor; [congruence | exact Hall].
        -- left. split; [exact Hm|]. constructor; [congruence | exact Hall].
      * right. exists (S j), h'. repeat split; [lia | exact Hj | exact Hh' | exact Hall].
    + intros [[Hm Hall] | (j & h' & -> & Hj & Hh' & Hall)].
      * apply Forall_cons in Hall as [Hh Hall]. left. split; [|exact Hall].
        destruct (headerSlot h) as [slot|]; [|exact Hm].
        rewrite lookup_insert_ne by congruence. exact Hm.
      * destruct j as [|j].
        -- cbn in Hj. injection Hj as ->. cbn [drop] in Hall. left.
           split; [|exact Hall]. rewrite Hh', Nat.add_0_r. apply lookup_insert_eq.
        -- right. exists j, h'. repeat split; [lia | exact Hj | exact Hh' | exact Hall].
Qed.

(** X8. When several header names fit the same column role, the last of
    them takes it: a role is mapped to column [i] exactly when the header at
    [i] fits it and no later header does. *)
Theorem last_matching_header_wins (headers : list string) (slot : string) (i : nat) :
  mapColumns 0 headers ∅ !! slot = Some i <->
  exists h, headers !! i = Some h /\ headerSlot h = Some slot /\
            Forall (fun h' => headerSlot h' <> Some slot) (drop (S i) headers).
Proof.
  rewrite mapColumns_lookup_Some. split.
  - intros [[H _] | (j & h & -> & H)]; [rewrite lookup_empty in H; discriminate|].
    exists h. exact H.
  - intros (h & H). right. exists i, h. split; [reflexivity | exact H].
Qed.

(** ** Letter case of header names *)

Lemma toLowerChar_sep (c : ascii) : isFieldSep (toLowerChar c) = isFieldSep c.
Proof. destruct c as [[] [] [] [] [] [] [] []]; reflexivity. Qed.

Lemma toLowerChar_space (c : ascii) : isWhiteSpace (toLowerChar c) = isWhiteSpace c.
Proof. destruct c as [[] [] [] [] [] [] [] []]; reflexivity. Qed.

Lemma toLowerCase_app (s t : string) :
  toLowerCase (s ++ t) = toLowerCase s ++ toLowerCase t.
Proof.
  induction s as [|c s IH]; [reflexivity|].
  rewrite append_cons. cbn [toLowerCase]. rewrite append_cons, IH. reflexivity.
Qed.

Lemma splitFields_toLowerCase (s : string) :
  forall cur inSep,
    splitFields (toLowerCase cur) inSep (toLowerCase s)
    = map toLowerCase (splitFields cur inSep s).
Proof.
  induction s as [|c s IH]; intros cur inSep; [reflexivity|].
  cbn [toLowerCase splitFields]. rewrite toLowerChar_sep.
  destruct (isFieldSep c).
  - destruct inSep; [apply (IH "") | cbn [map]; rewrite <- (IH "")]; reflexivity.
  - rewrite <- IH, toLowerCase_app. reflexivity.
Qed.

Lemma trimStart_toLowerCase (s : string) :
  trimStart (toLowerCase s) = toLowerCase (trimStart s).
Proof.
  induction s as [|c s IH]; [reflexivity|].
  cbn [toLowerCase trimStart]. rewrite toLowerChar_space.
  destruct (isWhiteSpace c); [exact IH | reflexivity].
Qed.

Lemma trimEnd_toLowerCase (s : string) :
  trimEnd (toLowerCase s) = toLowerCase (trimEnd s).
Proof.
  induction s as [|c s IH]; [reflexivity|].
  cbn [toLowerCase trimEnd]. rewrite IH, toLowerChar_space.
  destruct (trimEnd s); cbn [toLowerCase]; [destruct (isWhiteSpace c)|]; reflexivity.
Qed.

Lemma headersOf_toLowerCase (line : string) :
  headersOf line = map trim (splitOnSeparators (toLowerCase line)).
Proof.
  unfold headersOf, splitOnSeparators.
  change (splitFields "" false (toLowerCase line))
    with (splitFields (toLowerCase "") false (toLowerCase line)).
  rewrite (splitFields_toLowerCase line "" false), <- list_fmap_compose.
  apply list_fmap_ext. intros _ h _. cbn. unfold trim.
  rewrite trimStart_toLowerCase, trimEnd_toLowerCase. reflexivity.
Qed.

(** X9. Header names are read without regard to letter case. *)
Theorem header_names_ignore_case (line1 line2 : string) :
  toLowerCase line1 = toLowerCase line2 -> headersOf line1 = headersOf line2.
Proof.
  intros H. rewrite !headersOf_toLowerCase, H. reflexivity.
Qed.

Lemma header_names_ignore_case_witness :
  headersOf "CHAINAGE,Proposed_FRL,egl" = headersOf "chainage,PROPOSED_frl,EGL".
Proof.
  apply header_names_ignore_case. reflexivity.
Defined.

(** ** Exceptions of the data loop *)

Lemma chainageToMeters_Some (tok : string) :
  exists v, chainageToMeters (Some tok) = Return v.
Proof.
  unfold chainageToMeters. destruct (matchStationing _) as [[km m]|]; [eauto|].
  destruct (Number _); eauto.
Qed.

(** The only exception of a data line is the [TypeError] of a missing
    chainage cell. *)
Lemma parseLine_Throw (colMap : gmap string nat) (line : string) (e : JsError) :
  parseLine colMap line = Throw e ->
  e = TypeError /\
  (2 <= length (splitOnSeparators line))%nat /\
  match colMap !! "ch" with
  | Some i => (length (splitOnSeparators line) <= i)%nat
  | None => True
  end.
Proof.
  unfold parseLine. cbv zeta. rewrite length_map.
  destruct (length (splitOnSeparators line) <? 2)%nat eqn:El; [discriminate|].
  apply Nat.ltb_ge in El.
  destruct (colMap !! "ch") as [i|].
  - destruct (map trim (splitOnSeparators line) !! i) as [tok|] eqn:Ei.
    + destruct (chainageToMeters_Some tok) as [v ->]. cbn [mbind Outcome_bind].
      destruct v; [|discriminate]. destruct (pNum _); [|discriminate].
      match goal with
      | |- match ?X with _ => _ end = _ -> _ => destruct X as [[[a b] c] d]
      end. discriminate.
    + apply lookup_ge_None in Ei. rewrite length_map in Ei.
      cbn [chainageToMeters mbind Outcome_bind]. intros [= <-]. auto.
  - cbn [chainageToMeters mbind Outcome_bind]. intros [= <-]. auto.
Qed.

Lemma parseLine_short (colMap : gmap string nat) (line : string) (i : nat) :
  colMap !! "ch" = Some i ->
  (2 <= length (splitOnSeparators line) <= i)%nat ->
  parseLine colMap line = Throw TypeError.
Proof.
  intros Hch [H2 Hi]. unfold parseLine. cbv zeta. rewrite length_map.
  apply Nat.ltb_ge in H2. rewrite H2, Hch.
  assert (E : map trim (splitOnSeparators line) !! i = None)
    by (apply lookup_ge_None; rewrite length_map; exact Hi).
  rewrite E. reflexivity.
Qed.

Lemma firstPass_Throw (B medianWidth camber cutSlope fillSlope : Q)
    (colMap : gmap string nat) (lines : list string) :
  (exists line, line ∈ lines /\ parseLine colMap line = Throw TypeError) ->
  firstPass B medianWidth camber cutSlope fillSlope colMap lines = Throw TypeError.
Proof.
  induction lines as [|l rest IH]; intros (line & Hin & Hp).
  - apply elem_of_nil in Hin. contradiction.
  - cbn [firstPass]. destruct (parseLine colMap l) as [e|st] eqn:El.
    + apply parseLine_Throw in El as [-> _]. reflexivity.
    + cbn [mbind Outcome_bind]. rewrite IH; [reflexivity|].
      apply elem_of_cons in Hin as [-> | Hin]; [congruence|].
      exists line. split; assumption.
Qed.

(** X10. A data line with at least two cells that ends before the chainage
    column makes [computeEarthwork] throw a [TypeError], not the [Error] of a
    bad header, and no result is returned. *)
Theorem short_line_throws_TypeError (csvData : string)
    (B medianWidth camber cutSlope fillSlope : Q) (fixedSpacing : option Q)
    (line : string) (i : nat) :
  let lines := nonEmptyLines csvData in
  let colMap := mapColumns 0 (headersOf (hd "" lines)) ∅ in
  colMap !! "ch" = Some i ->
  is_Some (colMap !! "fgl") ->
  line ∈ tl lines ->
  (2 <= length (splitOnSeparators line) <= i)%nat ->
  computeEarthwork csvData B medianWidth camber cutSlope fillSlope fixedSpacing
  = Throw TypeError.
Proof.
  intros lines colMap Hch Hfgl Hin Hlen. unfold computeEarthwork.
  fold lines. fold colMap.
  assert (H2 : (length lines <? 2)%nat = false).
  { apply Nat.ltb_ge. destruct lines as [|h [|l rest]]; cbn in *; try lia;
      apply elem_of_nil in Hin; contradiction. }
  rewrite H2.
  rewrite bool_decide_eq_false_2 by (rewrite Hch; discriminate).
  rewrite bool_decide_eq_false_2 by (destruct Hfgl as [j ->]; discriminate).
  rewrite (firstPass_Throw B medianWidth camber cutSlope fillSlope colMap (tl lines)).
  - reflexivity.
  - exists line. split; [exact Hin|]. apply (parseLine_short colMap line i Hch Hlen).
Qed.

Lemma short_line_throws_TypeError_witness :
  computeEarthwork csvShortLine 20 4 0 1 2 None = Throw TypeError.
Proof.
  apply (short_line_throws_TypeError csvShortLine 20 4 0 1 2 None "100,95" 2).
  - vm_compute. reflexivity.
  - vm_compute. eexists. reflexivity.
  - vm_compute. left.
  - vm_compute. lia.
Defined.

Lemma firstPass_total (B medianWidth camber cutSlope fillSlope : Q)
    (colMap : gmap string nat) (lines : list string) :
  Forall (fun line => exists st, parseLine colMap line = Return st) lines ->
  exists rs,
    firstPass B medianWidth camber cutSlope fillSlope colMap lines = Return rs /\
    (length rs <= length lines)%nat.
Proof.
  induction lines as [|l rest IH]; intros Hall.
  - exists []. split; [reflexivity | cbn; lia].
  - apply Forall_cons in Hall as [[st Hl] Hall].
    destruct (IH Hall) as (rs & Hrs & Hlen).
    cbn [firstPass]. rewrite Hl, Hrs. cbn [mbind Outcome_bind].
    eexists. split; [reflexivity|]. destruct st; cbn [length]; lia.
Qed.

(** X11. With the chainage in one of the first two columns and a formation
    level column, [computeEarthwork] always returns: no data line can make
    it throw, and it returns at most one row for each data line. *)
Theorem chainage_in_first_two_columns_always_returns (csvData : string)
    (B medianWidth camber cutSlope fillSlope : Q) (fixedSpacing : option Q)
    (i : nat) :
  let lines := nonEmptyLines csvData in
  let colMap := mapColumns 0 (headersOf (hd "" lines)) ∅ in
  (2 <= length lines)%nat ->
  colMap !! "ch" = Some i -> (i < 2)%nat ->
  is_Some (colMap !! "fgl") ->
  exists res,
    computeEarthwork csvData B medianWidth camber cutSlope fillSlope fixedSpacing
    = Return res /\
    (length (rows res) <= length lines - 1)%nat.
Proof.
  intros lines colMap H2 Hch Hi Hfgl. unfold computeEarthwork.
  fold lines. fold colMap.
  apply Nat.ltb_ge in H2. rewrite H2.
  rewrite bool_decide_eq_false_2 by (rewrite Hch; discriminate).
  rewrite bool_decide_eq_false_2 by (destruct Hfgl as [j ->]; discriminate).
  destruct (firstPass_total B medianWidth camber cutSlope fillSlope colMap (tl lines))
    as (rs & -> & Hlen).
  { apply Forall_forall. intros line _.
    destruct (parseLine colMap line) as [e|st] eqn:E; [|eauto].
    apply parseLine_Throw in E as (_ & Hl & Hc). rewrite Hch in Hc. lia. }
  cbn [mbind Outcome_bind].
  pose proof (RowFacts.volumePass_length fixedSpacing rs (Some 0, Some 0)) as Hv.
  destruct (volumePass fixedSpacing rs (Some 0, Some 0)) as [out [tc tf]].
  eexists. split; [reflexivity|]. cbn [rows fst] in *. rewrite Hv.
  rewrite length_tl in Hlen. exact Hlen.
Qed.

Lemma chainage_in_first_two_columns_always_returns_witness :
  exists res,
    computeEarthwork csvA 20 4 0 1 2 None = Return res /\
    (length (rows res) <= length (nonEmptyLines csvA) - 1)%nat.
Proof.
  apply (chainage_in_first_two_columns_always_returns csvA 20 4 0 1 2 None 0).
  - vm_compute. lia.
  - vm_compute. reflexivity.
  - lia.
  - vm_compute. eexists. reflexivity.
Defined.

(** ** Widths of a row *)

Lemma toe_offsets_outside (B medianWidth camber cutSlope fillSlope : Q) (s : Station) :
  let g := geometry B medianWidth camber cutSlope fillSlope s in
  (px (g_toeL g) <= (- B) / 2)%Q /\ (B / 2 <= px (g_toeR g))%Q.
Proof.
  intros g.
  assert (HL : g_toeL g = default (mkPoint ((- B) / 2) (g_gL_at_edge g)) (g_scanL g))
    by reflexivity.
  assert (HR : g_toeR g = default (mkPoint (B / 2) (g_gR_at_edge g)) (g_scanR g))
    by reflexivity.
  split.
  - rewrite HL. destruct (g_scanL g) as [pt|] eqn:E; cbn; [|lra].
    apply findToe_Some in E as [_ (a & b & E)].
    apply getIntersection_on_ray in E as (ua & H0 & H1 & ->). cbn [px].
    assert (0 <= ua * 1000)%Q by (apply Qmult_le_0_compat; lra). lra.
  - rewrite HR. destruct (g_scanR g) as [pt|] eqn:E; cbn; [|lra].
    apply findToe_Some in E as [_ (a & b & E)].
    apply getIntersection_on_ray in E as (ua & H0 & H1 & ->). cbn [px].
    assert (0 <= ua * 1000)%Q by (apply Qmult_le_0_compat; lra). lra.
Qed.





(** ** Signs of the volumes and totals *)

Lemma spacingOf_nonneg (fx : option Q) (r1 r2 : EarthworkRow.t) :
  (0 <= spacingOf fx r1 r2)%Q.
Proof.
  unfold spacingOf. destruct fx as [s|]; [|apply Qabs_nonneg].
  destruct (Qltb 0 s) eqn:E; [|apply Qabs_nonneg].
  apply Qltb_lt in E. lra.
Qed.

Lemma segmentVolume_nonneg (fx : option Q) (r1 r2 : EarthworkRow.t) :
  (0 <= EarthworkRow.area r1)%Q -> (0 <= EarthworkRow.area r2)%Q ->
  (0 <= segmentVolume fx r1 r2)%Q.
Proof.
  intros H1 H2. unfold segmentVolume. apply round3_nonneg.
  apply Qmult_le_0_compat; [const_div; lra | apply spacingOf_nonneg].
Qed.

Lemma shares_nonneg (r : EarthworkRow.t) (V : Q) :
  (0 <= V)%Q -> (0 <= EarthworkRow.area r)%Q ->
  (0 <= EarthworkRow.areaCut r)%Q -> (0 <= EarthworkRow.areaFill r)%Q ->
  (0 <= cutShare r V)%Q /\ (0 <= fillShare r V)%Q.
Proof.
  intros HV Ha Hac Haf.
  assert (Hd : (0 < denominator r)%Q).
  { unfold denominator. destruct (Qeq_bool _ 0) eqn:E; [reflexivity|].
    apply Qeq_bool_neq in E. lra. }
  assert (H1 : (0 <= V * EarthworkRow.areaCut r / denominator r)%Q).
  { apply Qle_shift_div_l; [exact Hd|].
    assert (0 <= V * EarthworkRow.areaCut r)%Q by (apply Qmult_le_0_compat; assumption).
    lra. }
  assert (H2 : (0 <= V * EarthworkRow.areaFill r / denominator r)%Q).
  { apply Qle_shift_div_l; [exact Hd|].
    assert (0 <= V * EarthworkRow.areaFill r)%Q by (apply Qmult_le_0_compat; assumption).
    lra. }
  unfold cutShare, fillShare.
  destruct (EarthworkRow.type r); split; first [exact HV | exact H1 | exact H2 | lra].
Qed.

Lemma volumePass_nonneg (fx : option Q) (rs : list EarthworkRow.t) :
  Forall nonNegativeRow rs ->
  forall tc0 tf0 : Q, (0 <= tc0)%Q -> (0 <= tf0)%Q ->
    exists tc tf : Q,
      snd (volumePass fx rs (Some tc0, Some tf0)) = (Some tc, Some tf) /\
      (0 <= tc)%Q /\ (0 <= tf)%Q /\
      Forall nonNegativeRow (fst (volumePass fx rs (Some tc0, Some tf0))).
Proof.
  induction rs as [|a [|b rest] IH]; intros Hall tc0 tf0 Hc Hf.
  - exists tc0, tf0. cbn. auto.
  - exists tc0, tf0. cbn. auto.
  - rewrite RowFacts.volumePass_cons2. cbn [fst snd].
    pose proof Hall as Hall'.
    apply Forall_cons in Hall' as [(Ha & Hac & Haf & _) Hrest].
    pose proof Hrest as Hrest'.
    apply Forall_cons in Hrest' as [(Hb & _) _].
    pose proof (segmentVolume_nonneg fx a b Ha Hb) as HV.
    destruct (accumulate_shares tc0 tf0 a (segmentVolume fx a b))
      as (tc1 & tf1 & -> & Hc1 & Hf1).
    destruct (shares_nonneg a _ HV Ha Hac Haf) as [Sc Sf].
    destruct (IH Hrest tc1 tf1) as (tc & tf & Hsnd & H1 & H2 & H3); [lra | lra |].
    exists tc, tf. split; [exact Hsnd|]. split; [exact H1|]. split; [exact H2|].
    constructor; [|exact H3].
    unfold nonNegativeRow. cbn.
    repeat split; try assumption.
    apply round3_nonneg, spacingOf_nonneg.
Qed.

Lemma computeRow_nonNegative (B medianWidth camber cutSlope fillSlope : Q)
    (s : Station) :
  nonNegativeRow (computeRow B medianWidth camber cutSlope fillSlope s).
Proof.
  destruct (geometry_areas_nonneg B medianWidth camber cutSlope fillSlope s)
    as [Hc Hf].
  unfold nonNegativeRow.
  cbn [computeRow EarthworkRow.area EarthworkRow.areaCut EarthworkRow.areaFill
       EarthworkRow.segVolume EarthworkRow.spacing].
  repeat split; try (apply round3_nonneg); try lra.
Qed.

(** X13. In a returned result with rows of ordinary size both totals are
    numbers that are not negative, and no row stores a negative volume or a
    negative spacing. *)
Theorem volumes_are_nonnegative (csvData : string)
    (B medianWidth camber cutSlope fillSlope : Q) (fixedSpacing : option Q)
    (res : CalculationResult) :
  computeEarthwork csvData B medianWidth camber cutSlope fillSlope fixedSpacing
  = Return res ->
  Forall ordinaryRow (rows res) -> ordinarySpacing fixedSpacing ->
  (exists tc tf : Q,
      totalCut (summary res) = Some tc /\ totalFill (summary res) = Some tf /\
      (0 <= tc)%Q /\ (0 <= tf)%Q) /\
  Forall (fun r =>
            (0 <= EarthworkRow.segVolume r)%Q /\
            match EarthworkRow.spacing r with
            | Some L => (0 <= L)%Q
            | None => True
            end) (rows res).
Proof.
  intros Hrun _ _.
  destruct (computeEarthwork_Return _ _ _ _ _ _ _ _ Hrun) as [sts [Hrows Hsum]].
  destruct (volumePass_nonneg fixedSpacing
              (map (computeRow B medianWidth camber cutSlope fillSlope) sts))
    with (tc0 := 0%Q) (tf0 := 0%Q) as (tc & tf & Hsnd & H1 & H2 & H3).
  - apply Forall_fmap, Forall_forall. intros s _. apply computeRow_nonNegative.
  - lra.
  - lra.
  - rewrite Hsum, Hrows, Hsnd.
    cbn [totalCut totalFill fst snd fmap option_fmap option_map]. split.
    + exists (round3 tc), (round3 tf).
      split; [reflexivity|]. split; [reflexivity|].
      split; apply round3_nonneg; assumption.
    + eapply Forall_impl; [exact H3|]. intros r (_ & _ & _ & HV & HL). auto.
Qed.

Lemma volumes_are_nonnegative_witness :
  exists tc tf : Q,
    totalCut (summary mixedRun) = Some tc /\ totalFill (summary mixedRun) = Some tf /\
    (0 <= tc)%Q /\ (0 <= tf)%Q.
Proof.
  apply (volumes_are_nonnegative csvMixed 20 4 0 1 2 None mixedRun).
  - vm_compute. reflexivity.
  - let l := eval vm_compute in (rows mixedRun) in
    change (rows mixedRun) with l.
    repeat (apply Forall_cons; split; [repeat split; ordinary_size|]).
    apply Forall_nil. exact I.
  - exact I.
Defined.

(** X14. In a returned result with rows of ordinary size the net volume is
    a number, and it is the stored cut total minus the stored fill total up
    to the rounding step 0.001: it is rounded from the unrounded totals. *)
Theorem net_matches_totals (csvData : string)
    (B medianWidth camber cutSlope fillSlope : Q) (fixedSpacing : option Q)
    (res : CalculationResult) :
  computeEarthwork csvData B medianWidth camber cutSlope fillSlope fixedSpacing
  = Return res ->
  Forall ordinaryRow (rows res) -> ordinarySpacing fixedSpacing ->
  exists tc tf n : Q,
    totalCut (summary res) = Some tc /\ totalFill (summary res) = Some tf /\
    net (summary res) = Some n /\
    (Qabs (n - (tc - tf)) <= 0.001)%Q.
Proof.
  intros Hrun _ _.
  destruct (computeEarthwork_Return _ _ _ _ _ _ _ _ Hrun) as [sts [_ Hsum]].
  destruct (volumePass_nonneg fixedSpacing
              (map (computeRow B medianWidth camber cutSlope fillSlope) sts))
    with (tc0 := 0%Q) (tf0 := 0%Q) as (tc & tf & Hsnd & _).
  - apply Forall_fmap, Forall_forall. intros s _. apply computeRow_nonNegative.
  - lra.
  - lra.
  - rewrite Hsum, Hsnd.
    cbn [net totalCut totalFill fst snd fmap option_fmap option_map mbind option_bind].
    exists (round3 tc), (round3 tf), (round3 (tc - tf)).
    repeat (split; [reflexivity|]).
    pose proof (round3_sum_tolerance (tc - tf) tf) as H.
    rewrite (round3_wd (tc - tf + tf) tc) in H by ring.
    apply Qabs_Qle_condition in H as [H1 H2].
    apply Qabs_Qle_condition. split; lra.
Qed.

Lemma net_matches_totals_witness :
  exists tc tf n : Q,
    totalCut (summary mixedRun) = Some tc /\ totalFill (summary mixedRun) = Some tf /\
    net (summary mixedRun) = Some n /\
    (Qabs (n - (tc - tf)) <= 0.001)%Q.
Proof.
  apply (net_matches_totals csvMixed 20 4 0 1 2 None mixedRun).
  - vm_compute. reflexivity.
  - let l := eval vm_compute in (rows mixedRun) in
    change (rows mixedRun) with l.
    repeat (apply Forall_cons; split; [repeat split; ordinary_size|]).
    apply Forall_nil. exact I.
  - exact I.
Defined.

(** X15. A returned result with fewer than two rows has no segment: its
    three totals are the rounded zero and no row has a spacing or a
    volume. *)
Theorem fewer_than_two_rows_no_volume (csvData : string)
    (B medianWidth camber cutSlope fillSlope : Q) (fixedSpacing : option Q)
    (res : CalculationResult) :
  computeEarthwork csvData B medianWidth camber cutSlope fillSlope fixedSpacing
  = Return res ->
  (length (rows res) < 2)%nat ->
  summary res = mkSummary (Some (round3 0)) (Some (round3 0)) (Some (round3 (0 - 0))) /\
  (round3 0 == 0)%Q /\ (round3 (0 - 0) == 0)%Q /\
  Forall (fun r => EarthworkRow.spacing r = None /\ EarthworkRow.segVolume r = 0%Q)
    (rows res).
Proof.
  intros Hrun Hlen.
  destruct (computeEarthwork_Return _ _ _ _ _ _ _ _ Hrun) as [sts [Hrows Hsum]].
  rewrite Hrows, RowFacts.volumePass_length, length_map in Hlen.
  rewrite Hsum, Hrows.
  destruct sts as [|s [|s' sts]]; cbn in Hlen; try lia;
    (split; [reflexivity|]); (split; [reflexivity|]); (split; [reflexivity|]);
    repeat constructor.
Qed.

Lemma fewer_than_two_rows_no_volume_witness :
  summary (resultOf (computeEarthwork csvFill 20 4 0 1 2 None))
  = mkSummary (Some (round3 0)) (Some (round3 0)) (Some (round3 (0 - 0))).
Proof.
  destruct (fewer_than_two_rows_no_volume csvFill 20 4 0 1 2 None
              (resultOf (computeEarthwork csvFill 20 4 0 1 2 None))) as [H _].
  - vm_compute. reflexivity.
  - vm_compute. lia.
  - exact H.
Defined.

(** ** The drawings against the calculator *)

(** X16. On four ground points the drawings' own interpolation [getG] is
    the calculator's [getInterpolatedEGL]. *)
Theorem getG_is_getInterpolatedEGL (a b c d : Point) (x : Q) :
  getG [a; b; c; d] x = getInterpolatedEGL x [a; b; c; d].
Proof.
  unfold getG, getInterpolatedEGL. cbn [nth last getGLoop interpolateLoop].
  destruct (Qle_bool x (px a)); [reflexivity|].
  destruct (Qle_bool (px d) x); [reflexivity|].
  destruct (Qle_bool (px a) x && Qle_bool x (px b)); [reflexivity|].
  destruct (Qle_bool (px b) x && Qle_bool x (px c)); [reflexivity|].
  destruct (Qle_bool (px c) x && Qle_bool x (px d)); reflexivity.
Qed.

(** X17. The cross-section view puts each toe back where the calculator
    found it, within 0.75 mm: at the stored toe distance outside the
    formation edge.  Parameters and levels are of ordinary size. *)
Theorem visualizer_toes_match (B medianWidth camber cutSlope fillSlope : Q)
    (s : Station) :
  ordinaryParameters B medianWidth camber cutSlope fillSlope ->
  ordinaryStation s ->
  let g := geometry B medianWidth camber cutSlope fillSlope s in
  let c := Visualizer.getCoords (computeRow B medianWidth camber cutSlope fillSlope s) in
  (Qabs (Visualizer.xToeL c - px (g_toeL g)) <= 0.00075)%Q /\
  (Qabs (Visualizer.xToeR c - px (g_toeR g)) <= 0.00075)%Q.
Proof.
  intros _ _ g c.
  destruct (toe_offsets_outside B medianWidth camber cutSlope fillSlope s) as [HL HR].
  fold g in HL, HR.
  cbn [c Visualizer.getCoords Visualizer.xToeL Visualizer.xToeR computeRow
       EarthworkRow.B EarthworkRow.distL EarthworkRow.distR]. fold g.
  assert (EL : (Math_abs (px (g_toeL g) - (- B) / 2) == (- B) / 2 - px (g_toeL g))%Q).
  { unfold Math_abs. rewrite Qabs_neg by lra. ring. }
  assert (ER : (Math_abs (px (g_toeR g) - B / 2) == px (g_toeR g) - B / 2)%Q).
  { unfold Math_abs. rewrite Qabs_pos by lra. reflexivity. }
  pose proof (round3_error B) as HB.
  pose proof (round3_error (Math_abs (px (g_toeL g) - (- B) / 2))) as HdL.
  pose proof (round3_error (Math_abs (px (g_toeR g) - B / 2))) as HdR.
  rewrite EL in HdL at 2. rewrite ER in HdR at 2.
  apply Qabs_Qle_condition in HB as [HB1 HB2].
  apply Qabs_Qle_condition in HdL as [HL1 HL2].
  apply Qabs_Qle_condition in HdR as [HR1 HR2].
  split; apply Qabs_Qle_condition; const_div; split; lra.
Qed.

Lemma visualizer_toes_match_witness :
  (Qabs (Visualizer.xToeL (Visualizer.getCoords (computeRow 20 4 0 1 2 scenarioA))
         - px (g_toeL (geometry 20 4 0 1 2 scenarioA))) <= 0.00075)%Q.
Proof.
  destruct (visualizer_toes_match 20 4 0 1 2 scenarioA) as [H _].
  - unfold ordinaryParameters. repeat split; ordinary_size.
  - unfold ordinaryStation. repeat split; ordinary_size.
  - exact H.
Defined.

(** X18. The DXF and PDF drawings measure the stored toe distance from the
    centre line, not from the formation edge: each drawn toe is half the
    formation width closer to the centre than the toe that the calculator
    found.  Parameters and levels are of ordinary size. *)
Theorem drawing_toes_measured_from_centre (B medianWidth camber cutSlope fillSlope : Q)
    (s : Station) :
  ordinaryParameters B medianWidth camber cutSlope fillSlope ->
  ordinaryStation s ->
  let g := geometry B medianWidth camber cutSlope fillSlope s in
  let r := computeRow B medianWidth camber cutSlope fillSlope s in
  (Qabs (px (Drawing.pToeL r) - (px (g_toeL g) + B / 2)) <= 0.0005)%Q /\
  (Qabs (px (Drawing.pToeR r) - (px (g_toeR g) - B / 2)) <= 0.0005)%Q.
Proof.
  intros _ _ g r.
  destruct (toe_offsets_outside B medianWidth camber cutSlope fillSlope s) as [HL HR].
  fold g in HL, HR.
  cbn [r Drawing.pToeL Drawing.pToeR px computeRow
       EarthworkRow.distL EarthworkRow.distR]. fold g.
  assert (EL : (Math_abs (px (g_toeL g) - (- B) / 2) == (- B) / 2 - px (g_toeL g))%Q).
  { unfold Math_abs. rewrite Qabs_neg by lra. ring. }
  assert (ER : (Math_abs (px (g_toeR g) - B / 2) == px (g_toeR g) - B / 2)%Q).
  { unfold Math_abs. rewrite Qabs_pos by lra. reflexivity. }
  pose proof (round3_error (Math_abs (px (g_toeL g) - (- B) / 2))) as HdL.
  pose proof (round3_error (Math_abs (px (g_toeR g) - B / 2))) as HdR.
  rewrite EL in HdL at 2. rewrite ER in HdR at 2.
  apply Qabs_Qle_condition in HdL as [HL1 HL2].
  apply Qabs_Qle_condition in HdR as [HR1 HR2].
  split; apply Qabs_Qle_condition; const_div; split; lra.
Qed.

Lemma drawing_toes_measured_from_centre_witness :
  (Qabs (px (Drawing.pToeL (computeRow 20 4 0 1 2 scenarioA))
         - (px (g_toeL (geometry 20 4 0 1 2 scenarioA)) + 20 / 2)) <= 0.0005)%Q.
Proof.
  destruct (drawing_toes_measured_from_centre 20 4 0 1 2 scenarioA) as [H _].
  - unfold ordinaryParameters. repeat split; ordinary_size.
  - unfold ordinaryStation. repeat split; ordinary_size.
  - exact H.
Defined.
